(** * VisionBulk: the bulk scene-generation pipeline

    A shallow embedding of the pipeline of [App.tsx] ([processBulk],
    [downloadImage], [downloadAllAsZip]), of [generateImage] from
    [geminiService.ts] and of the data model of [types.ts], together with
    the properties the specification states about them.

    Conventions of the embedding:
    - a JavaScript string is a [string]; [undefined] / an absent optional
      field is [None];
    - React state is a record [AppState]; every [setX] call is applied at
      once and leaves an event in a chronological log, so that "every point
      of a run" is "every [SetResults] event of the log";
    - the two remote collaborators and the archive encoder are oracles
      (section variables): the k-th request to the image model may answer
      anything, or raise. *)

From Stdlib Require Import Ascii String DecimalString Decimal DecimalNat.
From stdpp Require Import base list strings.

Local Open Scope nat_scope.

(* ================================================================== *)
(** * JavaScript string primitives *)
(* ================================================================== *)

Module JsString.

(** [s.includes(sub)]: [sub] occurs in [s] at some offset. *)
Fixpoint includes (s sub : string) : bool :=
  String.prefix sub s ||
  match s with
  | EmptyString => false
  | String _ s' => includes s' sub
  end.

(** What "is a substring of" means. *)
Definition substring_of (sub s : string) : Prop :=
  ∃ pre post, s = pre +:+ sub +:+ post.

(** [arr.join(sep)] on an array of strings. *)
Fixpoint join (sep : string) (l : list string) : string :=
  match l with
  | [] => ""
  | [x] => x
  | x :: rest => x +:+ sep +:+ join sep rest
  end.

(** [s.split(sep)] for a one-character separator: the segments between
    the occurrences of [sep]; never the empty array. *)
Fixpoint split (sep : ascii) (s : string) : list string :=
  match s with
  | EmptyString => [""]
  | String c s' =>
      if Ascii.eqb c sep then "" :: split sep s'
      else match split sep s' with
           | seg :: rest => String c seg :: rest
           | [] => [String c ""]
           end
  end.

(** Truthiness of a possibly absent string: [undefined] and the empty
    string are falsy. *)
Definition truthy (o : option string) : bool :=
  match o with
  | Some (String _ _) => true
  | _ => false
  end.

(** [a || b] on strings. *)
Definition or_else (a b : string) : string :=
  match a with
  | EmptyString => b
  | String _ _ => a
  end.

(** [`${n}`] for a non-negative integer. *)
Definition of_nat (n : nat) : string :=
  NilZero.string_of_uint (Nat.to_uint n).

(** [String.prototype.toLowerCase] restricted to the ASCII letters. *)
Definition lower_ascii (c : ascii) : ascii :=
  let n := nat_of_ascii c in
  if (65 <=? n) && (n <=? 90) then ascii_of_nat (n + 32) else c.

Fixpoint asciiLowerCase (s : string) : string :=
  match s with
  | EmptyString => EmptyString
  | String c s' => String (lower_ascii c) (asciiLowerCase s')
  end.

Definition contains_char (c : ascii) (s : string) : bool :=
  existsb (Ascii.eqb c) (list_ascii_of_string s).

(** The text before the first separator. *)
Fixpoint first_segment (sep : ascii) (s : string) : string :=
  match s with
  | EmptyString => ""
  | String c s' =>
      if Ascii.eqb c sep then "" else String c (first_segment sep s')
  end.

End JsString.

(* ================================================================== *)
(** * Data model ([types.ts]) *)
(* ================================================================== *)

Record CharacterInfo := mkCharacterInfo {
  name : string;
  description : string
}.

Inductive SceneStatus := pending | generating | completed | error_.

Record ScenePrompt := mkScenePrompt {
  id : string;
  originalText : string;
  refinedPrompt : string;
  presentCharacters : list string;
  status : SceneStatus;
  imageUrl : option string;
  error : option string
}.

Record AnalysisResult := mkAnalysisResult {
  characters : list CharacterInfo;
  visualStyle : string;
  scenes : list ScenePrompt
}.

Global Instance SceneStatus_eq_dec : EqDecision SceneStatus.
Proof. solve_decision. Defined.

(** Field updates on a scene object. *)
Definition with_status (st : SceneStatus) (s : ScenePrompt) : ScenePrompt :=
  mkScenePrompt (id s) (originalText s) (refinedPrompt s)
    (presentCharacters s) st (imageUrl s) (error s).

Definition with_imageUrl (u : string) (s : ScenePrompt) : ScenePrompt :=
  mkScenePrompt (id s) (originalText s) (refinedPrompt s)
    (presentCharacters s) (status s) (Some u) (error s).

Definition with_error (e : string) (s : ScenePrompt) : ScenePrompt :=
  mkScenePrompt (id s) (originalText s) (refinedPrompt s)
    (presentCharacters s) (status s) (imageUrl s) (Some e).

Definition with_scenes (l : list ScenePrompt) (r : AnalysisResult)
  : AnalysisResult :=
  mkAnalysisResult (characters r) (visualStyle r) l.

(* ================================================================== *)
(** * Character context resolver ([processBulk], lines 62-69) *)
(* ================================================================== *)

Section Resolver.

(** [String.prototype.toLowerCase]; nothing below depends on which
    case mapping it is. *)
Variable toLowerCase : string → string.

(** The callback of [presentCharacters.some(...)]. *)
Definition nameMatches (c : CharacterInfo) (n : string) : bool :=
  JsString.includes (toLowerCase n) (toLowerCase (name c)) ||
  JsString.includes (toLowerCase (name c)) (toLowerCase n).

(** The callback of [characters.filter(...)]. *)
Definition isPresent (present : list string) (c : CharacterInfo) : bool :=
  existsb (nameMatches c) present.

(** The callback of [.map(...)]: [`${c.name} (${c.description})`]. *)
Definition renderCharacter (c : CharacterInfo) : string :=
  name c +:+ " (" +:+ description c +:+ ")".

Definition sceneCharacterContext
    (chars : list CharacterInfo) (present : list string) : string :=
  JsString.join "; "
    (map renderCharacter (filter (λ c, isPresent present c = true) chars)).

(** The context handed to [generateImage]:
    [sceneCharacterContext || "No specific character"]. *)
Definition resolveContext
    (chars : list CharacterInfo) (present : list string) : string :=
  JsString.or_else (sceneCharacterContext chars present)
    "No specific character".

(** The specification's reading of the match, in words: the name is,
    case-insensitively, a substring of some entry, or some entry is a
    substring of the name. *)
Definition Relevant (present : list string) (c : CharacterInfo) : Prop :=
  ∃ n, n ∈ present ∧
    (JsString.substring_of (toLowerCase (name c)) (toLowerCase n) ∨
     JsString.substring_of (toLowerCase n) (toLowerCase (name c))).

End Resolver.

(** [Selected P l l']: [l'] keeps exactly the elements of [l] that
    satisfy [P], in the order of [l] and with their multiplicity. *)
Inductive Selected {A} (P : A → Prop) : list A → list A → Prop :=
  | Selected_nil : Selected P [] []
  | Selected_keep x l l' :
      P x → Selected P l l' → Selected P (x :: l) (x :: l')
  | Selected_drop x l l' :
      ¬ P x → Selected P l l' → Selected P (x :: l) l'.

(* ================================================================== *)
(** * The image collaborator ([geminiService.ts], [generateImage]) *)
(* ================================================================== *)

(** How a call ends: it returns a value or throws. *)
Inductive Completion (A : Type) :=
  | Returned (a : A)
  | Threw (msg : string).
Arguments Returned {A} a.
Arguments Threw {A} msg.

(** The part of the SDK's response type that [generateImage] reads;
    every link of [response.candidates?.[0]?.content?.parts] may be
    absent, and so may the [data] and the [mimeType] of an inline part
    (the SDK declares both optional). *)
Record InlineData := mkInlineData {
  data : option string;
  mimeType : option string
}.
Record Part := mkPart { text : option string; inlineData : option InlineData }.
Record Content := mkContent { parts : option (list Part) }.
Record Candidate := mkCandidate { content : option Content }.
Record GenerateContentResponse := mkResponse {
  candidates : option (list Candidate)
}.

(** The argument of [ai.models.generateContent]. *)
Record GenRequest := mkGenRequest {
  model : string;
  promptText : string;
  imageAspectRatio : string
}.

Definition newline : string := String (ascii_of_nat 10) "".

Definition finalPrompt (prompt characterContext globalStyle : string)
  : string :=
  "PHOTOREALISTIC CINEMATIC IMAGE." +:+ newline +:+
  "  STYLE: " +:+ globalStyle +:+ "." +:+ newline +:+
  "  ACTIVE CHARACTERS IN THIS SCENE: " +:+ characterContext +:+ "."
    +:+ newline +:+
  "  SCENE DESCRIPTION: " +:+ prompt +:+ "." +:+ newline +:+
  "  TECHNICAL: 8k resolution, ultra-detailed, professional color grading, realistic skin textures, natural lighting.".

Definition imageRequest
    (prompt characterContext globalStyle aspectRatio : string) : GenRequest :=
  mkGenRequest "gemini-2.5-flash-image"
    (finalPrompt prompt characterContext globalStyle) aspectRatio.

(** [response.candidates?.[0]?.content?.parts || []]. *)
Definition responseParts (r : GenerateContentResponse) : list Part :=
  match candidates r with
  | Some (c :: _) =>
      match content c with
      | Some ct => default [] (parts ct)
      | None => []
      end
  | _ => []
  end.

(** The [for (const part of ...)] loop: the first part with
    [inlineData]. *)
Fixpoint firstInlineData (ps : list Part) : option InlineData :=
  match ps with
  | [] => None
  | p :: rest =>
      match inlineData p with
      | Some d => Some d
      | None => firstInlineData rest
      end
  end.

Definition dataUrlPrefix : string := "data:image/png;base64,".

(** [`${x}`] for a string that may be [undefined]. *)
Definition interpolate (x : option string) : string :=
  default "undefined" x.

(** [generateImage] from the point where the response has arrived. *)
Definition imageOfResponse (r : GenerateContentResponse)
  : Completion string :=
  match firstInlineData (responseParts r) with
  | Some d => Returned (dataUrlPrefix +:+ interpolate (data d))
  | None => Threw "No image data received from API"
  end.

(* ================================================================== *)
(** * Application state, events and the effect monad *)
(* ================================================================== *)

Record Progress := mkProgress { current : nat; total : nat }.

Record AppState := mkAppState {
  isAnalyzing : bool;
  isGenerating : bool;
  isZipping : bool;
  results : option AnalysisResult;
  progress : Progress
}.

(** The initial [useState] values. *)
Definition initialState : AppState :=
  mkAppState false false false None (mkProgress 0 0).

(** The in-memory [JSZip] object: its entries in insertion order, each
    a name and the base64 text given to [zip.file] ([None] when that
    argument was [undefined]). *)
Abbreviation Zip := (list (string * option string)).

Inductive Href :=
  | DataUrl (u : string)
  | BlobUrl (bytes : string).

(** What a handler does that is visible outside it, in order. *)
Inductive Event :=
  | SetIsAnalyzing (b : bool)
  | SetIsGenerating (b : bool)
  | SetIsZipping (b : bool)
  | SetResults (r : option AnalysisResult)   (* the value installed *)
  | SetProgress (p : Progress)               (* the value installed *)
  | AnalysisRequest (text : string)          (* analyzeScript *)
  | ImageRequest (req : GenRequest)          (* ai.models.generateContent *)
  | ZipGenerate (z : Zip)                    (* zip.generateAsync *)
  | Download (href : Href) (filename : string) (* link.click() *)
  | Alert (msg : string)
  | ConsoleError (msg : string).

Record World := mkWorld { app : AppState; log : list Event }.

Definition Run (A : Type) : Type := World → A * World.

Global Instance Run_ret : MRet Run := λ A a w, (a, w).

Global Instance Run_bind : MBind Run :=
  λ A B k m w, let (a, w') := m w in k a w'.

Definition exec {A} (m : Run A) (w : World) : World := snd (m w).

Definition emit (e : Event) : Run unit :=
  λ w, (tt, mkWorld (app w) (log w ++ [e])).

Definition update (f : AppState → AppState) (e : AppState → Event)
  : Run unit :=
  λ w, let s := f (app w) in (tt, mkWorld s (log w ++ [e s])).

Definition setIsAnalyzing (b : bool) : Run unit :=
  update (λ s, mkAppState b (isGenerating s) (isZipping s) (results s)
                 (progress s))
         (λ _, SetIsAnalyzing b).

Definition setIsGenerating (b : bool) : Run unit :=
  update (λ s, mkAppState (isAnalyzing s) b (isZipping s) (results s)
                 (progress s))
         (λ _, SetIsGenerating b).

Definition setIsZipping (b : bool) : Run unit :=
  update (λ s, mkAppState (isAnalyzing s) (isGenerating s) b (results s)
                 (progress s))
         (λ _, SetIsZipping b).

(** [setResults(prev => ...)]. *)
Definition setResults
    (f : option AnalysisResult → option AnalysisResult) : Run unit :=
  update (λ s, mkAppState (isAnalyzing s) (isGenerating s) (isZipping s)
                 (f (results s)) (progress s))
         (λ s, SetResults (results s)).

(** [setProgress(p => ...)]. *)
Definition setProgress (f : Progress → Progress) : Run unit :=
  update (λ s, mkAppState (isAnalyzing s) (isGenerating s) (isZipping s)
                 (results s) (f (progress s)))
         (λ s, SetProgress (progress s)).

(** [for (let i = start; i < start + count; i++) body(i)]. *)
Fixpoint forRange (count start : nat) (body : nat → Run unit) : Run unit :=
  match count with
  | 0 => mret tt
  | S k => body start ;; forRange k (S start) body
  end.

(** Projections of a log. *)
Definition resultsHistory (l : list Event) : list (option AnalysisResult) :=
  omap (λ e, match e with SetResults r => Some r | _ => None end) l.

Definition progressHistory (l : list Event) : list Progress :=
  omap (λ e, match e with SetProgress p => Some p | _ => None end) l.

Definition imageRequests (l : list Event) : list GenRequest :=
  omap (λ e, match e with ImageRequest q => Some q | _ => None end) l.

Definition zipGenerations (l : list Event) : list Zip :=
  omap (λ e, match e with ZipGenerate z => Some z | _ => None end) l.

Definition alerts (l : list Event) : list string :=
  omap (λ e, match e with Alert m => Some m | _ => None end) l.

Definition downloads (l : list Event) : list (Href * string) :=
  omap (λ e, match e with Download h f => Some (h, f) | _ => None end) l.

(** [console.error(a, b, ...)]. *)
Definition ConsoleErrors (msgs : list string) : Event :=
  ConsoleError (JsString.join " " msgs).

(* ================================================================== *)
(** * The handlers of [App.tsx] *)
(* ================================================================== *)

(** [newScenes[i].<field> = ...] inside a [setResults] updater: the
    object at index [i] of the current scene list is changed, the
    array is copied, a [null] state stays [null].  The scene objects
    of one run are distinct (line 46 creates one per slot), so the
    write reaches slot [i] only.  [alter] leaves the list alone when
    [i] is out of range, where JavaScript would throw; [sceneStep]
    only runs with [i] in range. *)
Definition updateScene (i : nat) (f : ScenePrompt → ScenePrompt)
    (prev : option AnalysisResult) : option AnalysisResult :=
  (λ p, with_scenes (alter f i (scenes p)) p) <$> prev.

Definition markGenerating : ScenePrompt → ScenePrompt :=
  with_status generating.

Definition markCompleted (url : string) : ScenePrompt → ScenePrompt :=
  with_imageUrl url ∘ with_status completed.

Definition markFailed : ScenePrompt → ScenePrompt :=
  with_error "Failed to generate image" ∘ with_status error_.

(** [`scene-${i + 1}.png`]. *)
Definition sceneFileName (i : nat) : string :=
  "scene-" +:+ JsString.of_nat (i + 1) +:+ ".png".

(** [s.imageUrl && s.status === 'completed'] as a condition. *)
Definition readyToBundle (s : ScenePrompt) : bool :=
  JsString.truthy (imageUrl s) && bool_decide (status s = completed).

(** [zip.file(name, data, { base64: true })]: the entry of that name is
    replaced where it stands, a new name is added at the end. *)
Definition zipFile (nm : string) (payload : option string) (zip : Zip) : Zip :=
  if bool_decide (nm ∈ zip.*1)
  then (λ e, if bool_decide (e.1 = nm) then (nm, payload) else e) <$> zip
  else zip ++ [(nm, payload)].

(** [scene.imageUrl.split(',')[1]]. *)
Definition base64Data (url : string) : option string :=
  JsString.split "," url !! 1.

(** The body of the loop of [downloadAllAsZip] (lines 120-124). *)
Definition zipStep (completedScenes : list ScenePrompt) (zip : Zip) (i : nat)
  : Zip :=
  match completedScenes !! i with
  | Some scene =>
      match imageUrl scene with
      | Some url =>
          if JsString.truthy (Some url)
          then zipFile (sceneFileName i) (base64Data url) zip
          else zip
      | None => zip
      end
  | None => zip
  end.

(** The archive as it stands when [generateAsync] is called. *)
Definition filledZip (completedScenes : list ScenePrompt) : Zip :=
  fold_left (zipStep completedScenes) (seq 0 (length completedScenes)) [].

(** ASCII white space: space, tab, line feed, vertical tab, form feed,
    carriage return. *)
Definition is_space (c : ascii) : bool :=
  let n := nat_of_ascii c in
  (n =? 32) || ((9 <=? n) && (n <=? 13)).

(** [!s.trim()], for a given [trim]: the trimmed text is the empty
    string. *)
Definition blank (trim : string → string) (s : string) : bool :=
  negb (JsString.truthy (Some (trim s))).

(** [String.prototype.trim] restricted to ASCII white space, for the
    worked examples. *)
Fixpoint dropSpaces (s : string) : string :=
  match s with
  | EmptyString => EmptyString
  | String c s' => if is_space c then dropSpaces s' else s
  end.

Fixpoint reverseOnto (s acc : string) : string :=
  match s with
  | EmptyString => acc
  | String c s' => reverseOnto s' (String c acc)
  end.

Definition asciiTrim (s : string) : string :=
  reverseOnto (dropSpaces (reverseOnto (dropSpaces s) "")) "".

Section Pipeline.

Variable toLowerCase : string → string.

(** [String.prototype.trim]; nothing below depends on which characters
    it strips. *)
Variable trim : string → string.

(** The remote analysis ([geminiService.ts], [analyzeScript]), declared
    [Promise<AnalysisResult>]: it returns a result or throws.  Its
    request carries a response schema with [characters], [visualStyle]
    and [scenes] required, and the result is taken at the declared
    type here.  What [JSON.parse(response.text || '{}')] gives for an
    empty response text is not an [AnalysisResult]; a run on it is not
    described by [processBulk] below, and every statement about a
    returned analysis is about a returned [AnalysisResult]. *)
Variable analyzeScript : string → Completion AnalysisResult.

(** The image model: the answer to the k-th request of the session. *)
Variable generateContent :
  nat → GenRequest → Completion GenerateContentResponse.

(** [zip.generateAsync({type: "blob"})]: the k-th encoding of the
    session. *)
Variable generateAsync : nat → Zip → Completion string.

Definition callAnalyzeScript (inputText : string)
  : Run (Completion AnalysisResult) :=
  λ w, (analyzeScript inputText,
        mkWorld (app w) (log w ++ [AnalysisRequest inputText])).

(** [generateImage] ([geminiService.ts], lines 62-89). *)
Definition generateImage
    (prompt characterContext globalStyle aspectRatio : string)
  : Run (Completion string) :=
  λ w,
    let req := imageRequest prompt characterContext globalStyle aspectRatio in
    let k := length (imageRequests (log w)) in
    (match generateContent k req with
     | Returned response => imageOfResponse response
     | Threw e => Threw e
     end,
     mkWorld (app w) (log w ++ [ImageRequest req])).

(** One iteration of the scene loop (lines 51-91).  The loop only runs
    it with [i < updatedScenes.length]; the [None] branch is there for
    totality. *)
Definition sceneStep (analysis : AnalysisResult)
    (updatedScenes : list ScenePrompt) (aspectRatio : string) (i : nat)
  : Run unit :=
  match updatedScenes !! i with
  | None => mret tt
  | Some scene =>
      setResults (updateScene i markGenerating) ;;
      outcome ← generateImage (refinedPrompt scene)
                  (resolveContext toLowerCase (characters analysis)
                     (presentCharacters scene))
                  (visualStyle analysis) aspectRatio ;
      match outcome with
      | Returned url => setResults (updateScene i (markCompleted url))
      | Threw _ => setResults (updateScene i markFailed)
      end ;;
      setProgress (λ p, mkProgress (i + 1) (total p))
  end.

(** Lines 45-92: the scene phase of a run. *)
Definition generateScenes (analysis : AnalysisResult) (aspectRatio : string)
  : Run unit :=
  setIsGenerating true ;;
  let updatedScenes := with_status pending <$> scenes analysis in
  setResults (fmap (with_scenes updatedScenes)) ;;
  setProgress (λ _, mkProgress 0 (length updatedScenes)) ;;
  forRange (length updatedScenes) 0
    (sceneStep analysis updatedScenes aspectRatio).

(** [processBulk] (lines 36-100). *)
Definition processBulk (inputText aspectRatio : string) : Run unit :=
  if blank trim inputText then mret tt
  else
    setIsAnalyzing true ;;
    outcome ← callAnalyzeScript inputText ;
    match outcome with
    | Returned analysis =>
        setResults (λ _, Some analysis) ;;
        setIsAnalyzing false ;;
        generateScenes analysis aspectRatio
    | Threw err =>
        emit (ConsoleErrors [err]) ;;
        emit (Alert "An error occurred during processing. Please check your script and try again.")
    end ;;
    setIsGenerating false ;;
    setIsAnalyzing false.

(** [downloadImage] (lines 102-107). *)
Definition downloadImage (url : string) (index : nat) : Run unit :=
  emit (Download (DataUrl url) (sceneFileName index)).

(** The download button of the card at position [idx] of the grid
    (lines 287-302): it exists when the scene has an image. *)
Definition clickDownload (idx : nat) : Run unit :=
  λ w,
    match results (app w) ≫= (λ r, scenes r !! idx) with
    | Some scene =>
        match imageUrl scene with
        | Some url =>
            if JsString.truthy (Some url) then downloadImage url idx w
            else (tt, w)
        | None => (tt, w)
        end
    | None => (tt, w)
    end.

Definition callGenerateAsync (zip : Zip) : Run (Completion string) :=
  λ w, (generateAsync (length (zipGenerations (log w))) zip,
        mkWorld (app w) (log w ++ [ZipGenerate zip])).

(** [downloadAllAsZip] (lines 109-137). *)
Definition downloadAllAsZip : Run unit :=
  λ w,
    match results (app w) with
    | None => (tt, w)
    | Some res =>
        (setIsZipping true ;;
         let completedScenes :=
           filter (λ s, readyToBundle s = true) (scenes res) in
         if length completedScenes =? 0
         then
           emit (Alert "No images ready to download yet.") ;;
           setIsZipping false
         else
           content ← callGenerateAsync (filledZip completedScenes) ;
           match content with
           | Returned blob =>
               emit (Download (BlobUrl blob) "visionbulk-scenes.zip")
           | Threw err =>
               emit (ConsoleErrors ["Failed to create ZIP"; err])
           end ;;
           setIsZipping false) w
    end.

End Pipeline.

(* ================================================================== *)
(** * Facts about the string primitives *)
(* ================================================================== *)

Module JsStringFacts.
Import JsString.

Lemma app_cons a s t : String a s +:+ t = String a (s +:+ t).
Proof. reflexivity. Qed.

Lemma app_empty_l s : "" +:+ s = s.
Proof. reflexivity. Qed.

Lemma app_is_empty s t : s +:+ t = "" → s = "" ∧ t = "".
Proof. destruct s; [rewrite app_empty_l; auto | rewrite app_cons; discriminate]. Qed.

Lemma prefix_iff sub s :
  String.prefix sub s = true ↔ ∃ post, s = sub +:+ post.
Proof.
  revert s. induction sub as [|a sub IH]; intros s.
  - destruct s; simpl; split; eauto.
  - destruct s as [|b s]; simpl.
    + split; [discriminate | intros [post H]; discriminate H].
    + destruct (ascii_dec a b) as [->|Hab].
      * rewrite IH. split; intros [post H]; exists post.
        -- rewrite app_cons. by f_equal.
        -- rewrite app_cons in H. by injection H.
      * split; [discriminate|]. intros [post H].
        rewrite app_cons in H. injection H as ? ?. congruence.
Qed.

(** [includes] decides [substring_of]. *)
Lemma includes_iff s sub : includes s sub = true ↔ substring_of sub s.
Proof.
  unfold substring_of. induction s as [|a s IH].
  - cbn [includes]. rewrite orb_false_r, prefix_iff. split.
    + intros [post H]. exists "", post. by rewrite app_empty_l.
    + intros [pre [post H]]. symmetry in H.
      apply app_is_empty in H as [_ H]. by exists post.
  - cbn [includes]. rewrite orb_true_iff, prefix_iff, IH. split.
    + intros [[post H]|[pre [post H]]].
      * exists "", post. by rewrite app_empty_l.
      * exists (String a pre), post. rewrite app_cons. by f_equal.
    + intros [pre [post H]]. destruct pre as [|b pre].
      * left. exists post. by rewrite app_empty_l in H.
      * right. rewrite app_cons in H. injection H as _ H. eauto.
Qed.

Lemma or_else_empty b : or_else "" b = b.
Proof. reflexivity. Qed.

Lemma or_else_nonempty a b : a ≠ "" → or_else a b = a.
Proof. by destruct a. Qed.

Lemma join_cons_nonempty sep x l : x ≠ "" → join sep (x :: l) ≠ "".
Proof.
  intros Hx. destruct l as [|y l]; [done|].
  change (x +:+ sep +:+ join sep (y :: l) ≠ "").
  intros H. by apply app_is_empty in H as [? _].
Qed.

(** Splitting [pre ++ sep ++ rest] when [pre] has no separator:
    [pre] is the first segment. *)
Lemma split_app_sep sep pre rest :
  contains_char sep pre = false →
  split sep (pre +:+ String sep rest) = pre :: split sep rest.
Proof.
  unfold contains_char. induction pre as [|a pre IH]; intros Hpre.
  - rewrite app_empty_l. cbn [split]. by rewrite Ascii.eqb_refl.
  - rewrite app_cons. cbn [split]. simpl in Hpre.
    apply orb_false_iff in Hpre as [Ha Hpre].
    rewrite Ascii.eqb_sym in Ha. rewrite Ha, (IH Hpre). done.
Qed.

Lemma split_no_sep sep s :
  contains_char sep s = false → split sep s = [s].
Proof.
  unfold contains_char. induction s as [|a s IH]; intros Hs; [done|].
  simpl in Hs. apply orb_false_iff in Hs as [Ha Hs].
  cbn [split]. rewrite Ascii.eqb_sym in Ha. by rewrite Ha, (IH Hs).
Qed.

Lemma head_split sep s : head (split sep s) = Some (first_segment sep s).
Proof.
  induction s as [|a s IH]; [done|]. cbn [split first_segment].
  destruct (Ascii.eqb a sep); [done|].
  destruct (split sep s) as [|seg rest]; [discriminate IH|].
  simpl in *. congruence.
Qed.

Lemma first_segment_no_sep sep s :
  contains_char sep s = false → first_segment sep s = s.
Proof.
  unfold contains_char. induction s as [|a s IH]; intros Hs; [done|].
  simpl in Hs. apply orb_false_iff in Hs as [Ha Hs].
  cbn [first_segment]. rewrite Ascii.eqb_sym in Ha.
  by rewrite Ha, (IH Hs).
Qed.

(** Decimal rendering is injective. *)
Lemma of_nat_inj n m : of_nat n = of_nat m → n = m.
Proof.
  unfold of_nat. intros H.
  apply (f_equal NilZero.uint_of_string) in H.
  assert (Hnz : ∀ k, Nat.to_uint k ≠ Nil).
  { intros k Hk. pose proof (Unsigned.of_to k) as Hof.
    rewrite Hk in Hof. simpl in Hof. subst k. discriminate Hk. }
  rewrite !NilZero.usu in H by apply Hnz.
  injection H as H. by apply Unsigned.to_uint_inj.
Qed.

End JsStringFacts.

(* ================================================================== *)
(** * The character context resolver *)
(* ================================================================== *)

Section SelectedFacts.
Context {A : Type} (P : A → Prop) `{!∀ x, Decision (P x)}.

Lemma Selected_filter l : Selected P l (filter P l).
Proof.
  induction l as [|x l IH]; [constructor|].
  rewrite filter_cons. case_decide; by constructor.
Qed.

Lemma Selected_unique l l1 l2 :
  Selected P l l1 → Selected P l l2 → l1 = l2.
Proof.
  intros H1. revert l2.
  induction H1; intros l2 H2; inversion H2; subst;
    try done; f_equal; auto.
Qed.

Lemma Selected_elem_of l l' x : Selected P l l' → x ∈ l' ↔ x ∈ l ∧ P x.
Proof.
  induction 1 as [|y l l' Hy _ IH|y l l' Hy _ IH].
  - split; [by intros ?%elem_of_nil | by intros [?%elem_of_nil _]].
  - rewrite !elem_of_cons, IH. split.
    + intros [->|[? ?]]; auto.
    + intros [[->|?] ?]; auto.
  - rewrite elem_of_cons, IH. split.
    + intros [? ?]; auto.
    + intros [[->|?] ?]; [contradiction | auto].
Qed.
End SelectedFacts.

Lemma Selected_ext {A} (P Q : A → Prop) l l' :
  (∀ x, P x ↔ Q x) → Selected P l l' → Selected Q l l'.
Proof.
  intros HPQ. induction 1; constructor; auto; by rewrite <- HPQ.
Qed.

Section ResolverFacts.
Variable toLowerCase : string → string.
Import JsString JsStringFacts.

Lemma nameMatches_iff c n :
  nameMatches toLowerCase c n = true ↔
  substring_of (toLowerCase (name c)) (toLowerCase n) ∨
  substring_of (toLowerCase n) (toLowerCase (name c)).
Proof.
  unfold nameMatches. by rewrite orb_true_iff, !includes_iff.
Qed.

Lemma isPresent_iff present c :
  isPresent toLowerCase present c = true ↔ Relevant toLowerCase present c.
Proof.
  unfold isPresent, Relevant. rewrite existsb_exists.
  split; intros [n [Hn Hm]]; exists n.
  - by rewrite list_elem_of_In, <- nameMatches_iff.
  - by rewrite <- list_elem_of_In, nameMatches_iff.
Qed.

Lemma renderCharacter_nonempty c : renderCharacter c ≠ "".
Proof.
  unfold renderCharacter. intros H.
  apply app_is_empty in H as [_ H]. discriminate H.
Qed.

Lemma join_concat sep l : join sep l = String.concat sep l.
Proof.
  induction l as [|x [|y rest] IH]; [done | done |].
  change (x +:+ sep +:+ join sep (y :: rest) =
          x +:+ sep +:+ String.concat sep (y :: rest)).
  by rewrite IH.
Qed.

(** C1. The resolver keeps exactly the characters of the sheet whose
    lower-cased name is a substring of some lower-cased entry of
    [presentCharacters] or contains one, in sheet order; it renders
    each as "Name (description)" and joins them with "; "; when none
    is kept the result is "No specific character", and the result is
    never the empty string. *)
Theorem resolver_correct
    (chars : list CharacterInfo) (present : list string) :
  ∃ matched,
    Selected (Relevant toLowerCase present) chars matched ∧
    (∀ c, c ∈ matched ↔ c ∈ chars ∧ Relevant toLowerCase present c) ∧
    resolveContext toLowerCase chars present =
      match matched with
      | [] => "No specific character"
      | _ :: _ =>
          String.concat "; "
            ((λ c, name c +:+ " (" +:+ description c +:+ ")") <$> matched)
      end ∧
    resolveContext toLowerCase chars present ≠ "".
Proof.
  set (kept := filter (λ c, isPresent toLowerCase present c = true) chars).
  assert (Hsel : Selected (Relevant toLowerCase present) chars kept).
  { eapply Selected_ext; [apply isPresent_iff | apply Selected_filter]. }
  assert (Hres : resolveContext toLowerCase chars present =
            match kept with
            | [] => "No specific character"
            | _ :: _ => join "; " (renderCharacter <$> kept)
            end).
  { unfold resolveContext, sceneCharacterContext. fold kept.
    destruct kept as [|c rest]; [done|].
    apply or_else_nonempty. rewrite fmap_cons.
    apply join_cons_nonempty, renderCharacter_nonempty. }
  exists kept. split_and!; [done | | |].
  - intros c. unfold kept. rewrite list_elem_of_filter, isPresent_iff. tauto.
  - rewrite Hres. destruct kept as [|c rest]; [done|].
    by rewrite join_concat.
  - rewrite Hres. destruct kept as [|c rest]; [done|].
    rewrite fmap_cons. apply join_cons_nonempty, renderCharacter_nonempty.
Qed.

End ResolverFacts.

(** The two resolver examples of the specification. *)
Example resolver_ayesha :
  resolveContext JsString.asciiLowerCase
    [mkCharacterInfo "Ayesha" "tall, green scarf";
     mkCharacterInfo "Bilal" "short beard"] ["ayesha"]
  = "Ayesha (tall, green scarf)".
Proof. reflexivity. Qed.

Example resolver_nobody :
  resolveContext JsString.asciiLowerCase
    [mkCharacterInfo "Ayesha" "tall, green scarf";
     mkCharacterInfo "Bilal" "short beard"] []
  = "No specific character".
Proof. reflexivity. Qed.

(* ================================================================== *)
(** * The image payload *)
(* ================================================================== *)

Section PayloadFacts.
Import JsString JsStringFacts.

Lemma firstInlineData_None ps :
  firstInlineData ps = None ↔ ∀ p, p ∈ ps → inlineData p = None.
Proof.
  induction ps as [|p ps IH]; simpl.
  - split; [by intros _ p ?%elem_of_nil | done].
  - destruct (inlineData p) eqn:Hp.
    + split; [done|]. intros H. specialize (H p). rewrite Hp in H.
      apply H. by left.
    + rewrite IH. split.
      * intros H q [->|Hq]%elem_of_cons; auto.
      * intros H q Hq. apply H. by right.
Qed.

Lemma firstInlineData_Some ps d :
  firstInlineData ps = Some d →
  ∃ pre p post, ps = pre ++ p :: post ∧
    (∀ q, q ∈ pre → inlineData q = None) ∧ inlineData p = Some d.
Proof.
  induction ps as [|p ps IH]; simpl; [done|].
  destruct (inlineData p) eqn:Hp.
  - intros [= ->]. exists [], p, ps. split_and!; [done| |done].
    by intros q ?%elem_of_nil.
  - intros (pre & p' & post & -> & Hpre & Hp')%IH.
    exists (p :: pre), p', post. split_and!; [done| |done].
    intros q [->|Hq]%elem_of_cons; auto.
Qed.

(** What the bundler reads back from a payload of [generateImage]. *)
Lemma base64Data_dataUrl d :
  base64Data (dataUrlPrefix +:+ d) = Some (first_segment "," d).
Proof.
  unfold base64Data.
  change (dataUrlPrefix +:+ d)
    with ("data:image/png;base64" +:+ String "," d).
  rewrite split_app_sep by done.
  pose proof (head_split "," d) as H.
  by destruct (split "," d).
Qed.

(** The parts of the first candidate of a response, link by link as
    [response.candidates?.[0]?.content?.parts || []] reads them: a
    missing link gives no parts. *)
Inductive FirstCandidateParts (r : GenerateContentResponse)
  : list Part → Prop :=
  | FCP_no_candidates :
      candidates r = None → FirstCandidateParts r []
  | FCP_no_candidate :
      candidates r = Some [] → FirstCandidateParts r []
  | FCP_no_content c rest :
      candidates r = Some (c :: rest) → content c = None →
      FirstCandidateParts r []
  | FCP_no_parts c rest ct :
      candidates r = Some (c :: rest) → content c = Some ct →
      parts ct = None → FirstCandidateParts r []
  | FCP_parts c rest ct ps :
      candidates r = Some (c :: rest) → content c = Some ct →
      parts ct = Some ps → FirstCandidateParts r ps.

Lemma FirstCandidateParts_responseParts r ps :
  FirstCandidateParts r ps → responseParts r = ps.
Proof.
  unfold responseParts.
  destruct 1 as [H|H|c rest H Hc|c rest ct H Hc Hp|c rest ct ps H Hc Hp];
    rewrite H; try done; rewrite Hc; try done; by rewrite Hp.
Qed.

Lemma firstInlineData_first pre p post d :
  (∀ q, q ∈ pre → inlineData q = None) → inlineData p = Some d →
  firstInlineData (pre ++ p :: post) = Some d.
Proof.
  intros Hpre Hp. induction pre as [|q pre IH]; simpl.
  - by rewrite Hp.
  - rewrite (Hpre q) by (by left). apply IH.
    intros q' Hq'. apply Hpre. by right.
Qed.

Variable generateContent :
  nat → GenRequest → Completion GenerateContentResponse.

(** C10 (as the code has it). Take a call of [generateImage] whose
    request the image model answers with a response, and the parts of
    the first candidate of that response (none when the candidates,
    the first candidate's content or its parts are missing).  The call
    throws exactly when none of these parts has an [inlineData], and
    then with "No image data received from API".  When the first part
    that has one carries a data text, the call returns
    "data:image/png;base64," followed by that text, whatever the
    part's mime type; and [split(',')[1]], the bundler's reader, gets
    from that result the text up to its first comma: all of it for
    base64 text.  A result is always built from the first part that
    has an [inlineData]. *)
Theorem generateImage_payload
    (prompt characterContext globalStyle aspectRatio : string) (w : World)
    (r : GenerateContentResponse) (ps : list Part) :
  generateContent (length (imageRequests (log w)))
    (imageRequest prompt characterContext globalStyle aspectRatio)
    = Returned r →
  FirstCandidateParts r ps →
  let outcome :=
    (generateImage generateContent prompt characterContext globalStyle
       aspectRatio w).1 in
  ((∃ msg, outcome = Threw msg) ↔ ∀ p, p ∈ ps → inlineData p = None) ∧
  ((∀ p, p ∈ ps → inlineData p = None) →
     outcome = Threw "No image data received from API") ∧
  (∀ pre p post d text,
     ps = pre ++ p :: post →
     (∀ q, q ∈ pre → inlineData q = None) →
     inlineData p = Some d → data d = Some text →
     outcome = Returned ("data:image/png;base64," +:+ text) ∧
     base64Data ("data:image/png;base64," +:+ text)
       = Some (first_segment "," text) ∧
     (contains_char "," text = false →
        base64Data ("data:image/png;base64," +:+ text) = Some text)) ∧
  (∀ url, outcome = Returned url →
     ∃ pre p post d,
       ps = pre ++ p :: post ∧
       (∀ q, q ∈ pre → inlineData q = None) ∧
       inlineData p = Some d ∧
       (∀ text, data d = Some text →
          url = "data:image/png;base64," +:+ text)).
Proof.
  intros Hanswer Hps outcome.
  assert (Hout : outcome = imageOfResponse r).
  { unfold outcome, generateImage. cbn [fst]. by rewrite Hanswer. }
  rewrite Hout. clear Hout outcome. unfold imageOfResponse.
  rewrite (FirstCandidateParts_responseParts _ _ Hps). split_and!.
  - rewrite <- firstInlineData_None.
    destruct (firstInlineData ps); split; try done.
    + by intros [msg H].
    + eauto.
  - intros Hnone%firstInlineData_None. by rewrite Hnone.
  - intros pre p post d text -> Hpre Hp Hd.
    rewrite (firstInlineData_first _ _ _ _ Hpre Hp), Hd. split_and!.
    + done.
    + apply base64Data_dataUrl.
    + intros Hc. pose proof (base64Data_dataUrl text) as H.
      unfold dataUrlPrefix in H. by rewrite H, first_segment_no_sep.
  - intros url Hurl.
    destruct (firstInlineData ps) as [d|] eqn:Hd; [|done].
    injection Hurl as <-.
    apply firstInlineData_Some in Hd as (pre & p & post & -> & Hpre & Hp).
    exists pre, p, post, d. split_and!; try done.
    by intros text ->.
Qed.

End PayloadFacts.

(** A response whose image part is labelled JPEG still yields a PNG
    data URL; a response without candidates throws. *)
Example generateImage_jpeg :
  imageOfResponse
    (mkResponse (Some [mkCandidate (Some (mkContent (Some
      [mkPart (Some "here") None;
       mkPart None
         (Some (mkInlineData (Some "QUJD") (Some "image/jpeg")))])))]))
  = Returned "data:image/png;base64,QUJD".
Proof. reflexivity. Qed.

Example generateImage_no_candidates :
  imageOfResponse (mkResponse None)
  = Threw "No image data received from API".
Proof. reflexivity. Qed.

(* ================================================================== *)
(** * The scene phase of a run *)
(* ================================================================== *)

(** Events a computation adds to the log. *)
Definition emitted {A} (m : Run A) (w : World) : list Event :=
  drop (length (log w)) (log (exec m w)).

Definition settle (o : Completion string) : ScenePrompt → ScenePrompt :=
  match o with
  | Returned url => markCompleted url
  | Threw _ => markFailed
  end.

(** Lists built by running over a range of indices. *)
Section RangeFacts.
Context {A B : Type}.

Lemma bind_seq_ext (g h : nat → list B) a c :
  (∀ i, a ≤ i < a + c → g i = h i) → seq a c ≫= g = seq a c ≫= h.
Proof.
  revert a. induction c as [|c IH]; intros a Hgh; [done|].
  cbn [seq]. rewrite !bind_cons, (Hgh a) by lia.
  f_equal. apply IH. intros i Hi. apply Hgh. lia.
Qed.

Lemma omap_bind_seq (f : A → option B) (g : nat → list A) a c :
  omap f (seq a c ≫= g) = seq a c ≫= (λ i, omap f (g i)).
Proof.
  revert a. induction c as [|c IH]; intros a; [done|].
  cbn [seq]. by rewrite !bind_cons, omap_app, IH.
Qed.

Lemma bind_seq_pairs (g : nat → list B) (x : B) a c :
  (∀ i, a ≤ i < a + c → g i = [x; x]) →
  seq a c ≫= g = replicate (2 * c) x.
Proof.
  revert a. induction c as [|c IH]; intros a Hg; [done|].
  cbn [seq]. rewrite bind_cons, (Hg a) by lia.
  rewrite IH by (intros i Hi; apply Hg; lia).
  replace (2 * S c) with (S (S (2 * c))) by lia. done.
Qed.

Lemma bind_seq_singleton (h : nat → B) a c :
  seq a c ≫= (λ i, [h i]) = h <$> seq a c.
Proof.
  revert a. induction c as [|c IH]; intros a; [done|].
  cbn [seq]. by rewrite bind_cons, IH.
Qed.

Lemma bind_seq_lookup (f : A → B) (l : list A) :
  seq 0 (length l) ≫= (λ i, from_option (λ x, [f x]) [] (l !! i)) = f <$> l.
Proof.
  induction l as [|x l IH] using rev_ind; [done|].
  rewrite length_app, Nat.add_1_r, seq_S, bind_app, fmap_app.
  f_equal.
  - rewrite <- IH. apply bind_seq_ext. intros i Hi.
    by rewrite lookup_app_l by lia.
  - rewrite bind_cons. cbn [Nat.add]. rewrite list_lookup_middle by done.
    done.
Qed.

Lemma seq_split_at a n k :
  k < n → seq a n = seq a k ++ (a + k) :: seq (a + S k) (n - S k).
Proof.
  intros Hk. replace n with (k + S (n - S k)) at 1 by lia.
  rewrite seq_app. cbn [seq]. by rewrite Nat.add_succ_r.
Qed.
End RangeFacts.

(** The statuses scene [j] shows in the successive result states. *)
Definition statusTrace (j : nat) (l : list Event) : list SceneStatus :=
  omap (λ e, match e with
             | SetResults (Some r) => status <$> scenes r !! j
             | _ => None
             end) l.

Definition terminal (st : SceneStatus) : Prop :=
  st = completed ∨ st = error_.

(** A field that holds a non-empty string. *)
Definition populated (o : option string) : Prop :=
  ∃ v, o = Some v ∧ v ≠ "".

(** The state invariant of one scene. *)
Definition sceneStateOk (s : ScenePrompt) : Prop :=
  (populated (imageUrl s) ↔ status s = completed) ∧
  (populated (error s) ↔ status s = error_) ∧
  (status s ≠ completed → imageUrl s = None) ∧
  (status s ≠ error_ → error s = None).

Section RunFacts.
Variable toLowerCase : string → string.
Variable generateContent :
  nat → GenRequest → Completion GenerateContentResponse.
Variable analysis : AnalysisResult.
Variable aspectRatio : string.

Definition sceneRequest (s : ScenePrompt) : GenRequest :=
  imageRequest (refinedPrompt s)
    (resolveContext toLowerCase (characters analysis) (presentCharacters s))
    (visualStyle analysis) aspectRatio.

Definition sceneOutcome (k : nat) (s : ScenePrompt) : Completion string :=
  match generateContent k (sceneRequest s) with
  | Returned response => imageOfResponse response
  | Threw e => Threw e
  end.

Lemma imageRequests_app l1 l2 :
  imageRequests (l1 ++ l2) = imageRequests l1 ++ imageRequests l2.
Proof. apply omap_app. Qed.

Lemma sceneStep_exec us i scene w :
  us !! i = Some scene →
  exec (sceneStep toLowerCase generateContent analysis us aspectRatio i) w =
  let o := sceneOutcome (length (imageRequests (log w))) scene in
  let r1 := updateScene i markGenerating (results (app w)) in
  let r2 := updateScene i (settle o) r1 in
  mkWorld
    (mkAppState (isAnalyzing (app w)) (isGenerating (app w))
       (isZipping (app w)) r2
       (mkProgress (i + 1) (total (progress (app w)))))
    (log w ++ [SetResults r1; ImageRequest (sceneRequest scene);
               SetResults r2;
               SetProgress (mkProgress (i + 1) (total (progress (app w))))]).
Proof.
  intros Hi. unfold sceneStep. rewrite Hi.
  unfold exec, mbind, Run_bind, setResults, setProgress, update,
    generateImage. cbn -[updateScene imageRequests].
  rewrite imageRequests_app, length_app, Nat.add_0_r. cbn -[updateScene imageRequests].
  fold (sceneRequest scene).
  unfold sceneOutcome.
  destruct (generateContent _ _) as [resp|e]; cbn -[updateScene imageRequests].
  - destruct (imageOfResponse resp); cbn -[updateScene imageRequests]; rewrite <- !app_assoc; done.
  - rewrite <- !app_assoc; done.
Qed.

Lemma exec_bind {A B} (m : Run A) (k : A → Run B) w :
  exec (m ≫= k) w = exec (k (m w).1) (m w).2.
Proof. unfold exec, mbind, Run_bind. by destruct (m w). Qed.

Lemma exec_seq {A B} (m : Run A) (k : Run B) w :
  exec (m ;; k) w = exec k (exec m w).
Proof. apply exec_bind. Qed.

(** Image requests issued before the run starts. *)
Variable k0 : nat.

Definition updatedScenes : list ScenePrompt :=
  with_status pending <$> scenes analysis.

Definition outcomeOf (j : nat) (s : ScenePrompt) : Completion string :=
  sceneOutcome (k0 + j) s.

(** The scene list once the first [k] scenes have been processed. *)
Definition scenesDone (k : nat) : list ScenePrompt :=
  imap (λ j s, if decide (j < k) then settle (outcomeOf j s) s else s)
    updatedScenes.

(** The scene list while scene [k] is being generated. *)
Definition scenesBusy (k : nat) : list ScenePrompt :=
  alter markGenerating k (scenesDone k).

(** The events of iteration [i]. *)
Definition stepLog (r : AnalysisResult) (i : nat) : list Event :=
  match updatedScenes !! i with
  | Some scene =>
      [SetResults (Some (with_scenes (scenesBusy i) r));
       ImageRequest (sceneRequest scene);
       SetResults (Some (with_scenes (scenesDone (S i)) r));
       SetProgress (mkProgress (i + 1) (length updatedScenes))]
  | None => []
  end.

Lemma settle_markGenerating o s : settle o (markGenerating s) = settle o s.
Proof. by destruct o. Qed.

Lemma lookup_scenesDone_lt k j s :
  updatedScenes !! j = Some s → j < k →
  scenesDone k !! j = Some (settle (outcomeOf j s) s).
Proof.
  intros Hj Hlt. unfold scenesDone. rewrite list_lookup_imap, Hj.
  unfold fmap, option_fmap, option_map. by rewrite decide_True.
Qed.

Lemma lookup_scenesDone_ge k j :
  k ≤ j → scenesDone k !! j = updatedScenes !! j.
Proof.
  intros Hge. unfold scenesDone. rewrite list_lookup_imap.
  destruct (updatedScenes !! j) as [s|]; [|done].
  unfold fmap, option_fmap, option_map. rewrite decide_False; [done|lia].
Qed.

Lemma length_scenesDone k : length (scenesDone k) = length updatedScenes.
Proof. apply length_imap. Qed.

Lemma scenesDone_0 : scenesDone 0 = updatedScenes.
Proof. apply list_eq. intros j. apply lookup_scenesDone_ge. lia. Qed.

Lemma lookup_scenesBusy_eq k s :
  updatedScenes !! k = Some s →
  scenesBusy k !! k = Some (markGenerating s).
Proof.
  intros Hk. unfold scenesBusy.
  by rewrite list_lookup_alter_eq, lookup_scenesDone_ge, Hk.
Qed.

Lemma lookup_scenesBusy_ne k j :
  k ≠ j → scenesBusy k !! j = scenesDone k !! j.
Proof. intros. unfold scenesBusy. by rewrite list_lookup_alter_ne. Qed.

Lemma scenesDone_step i scene :
  updatedScenes !! i = Some scene →
  alter (settle (outcomeOf i scene)) i (scenesBusy i) = scenesDone (S i).
Proof.
  intros Hi. apply list_eq. intros j.
  destruct (decide (i = j)) as [<-|Hne].
  - rewrite list_lookup_alter_eq, (lookup_scenesBusy_eq _ _ Hi).
    rewrite (lookup_scenesDone_lt _ _ _ Hi) by lia. simpl.
    by rewrite settle_markGenerating.
  - rewrite list_lookup_alter_ne, lookup_scenesBusy_ne by done.
    destruct (decide (j < i)).
    + destruct (updatedScenes !! j) as [s|] eqn:Hj.
      * by rewrite !(lookup_scenesDone_lt _ _ _ Hj) by lia.
      * apply lookup_ge_None in Hj. apply lookup_lt_Some in Hi. lia.
    + by rewrite !lookup_scenesDone_ge by lia.
Qed.

Lemma sceneLoop_exec count : ∀ i w r,
  i + count = length updatedScenes →
  results (app w) = Some (with_scenes (scenesDone i) r) →
  length (imageRequests (log w)) = k0 + i →
  progress (app w) = mkProgress i (length updatedScenes) →
  exec (forRange count i
          (sceneStep toLowerCase generateContent analysis updatedScenes
             aspectRatio)) w =
  mkWorld
    (mkAppState (isAnalyzing (app w)) (isGenerating (app w))
       (isZipping (app w))
       (Some (with_scenes (scenesDone (length updatedScenes)) r))
       (mkProgress (length updatedScenes) (length updatedScenes)))
    (log w ++ (seq i count ≫= stepLog r)).
Proof.
  induction count as [|c IH]; intros i w r Hn Hres Hk Hp.
  - rewrite Nat.add_0_r in Hn. subst i.
    destruct w as [[a g z res p] l]. simpl in *. subst.
    unfold exec. simpl. by rewrite app_nil_r.
  - destruct (lookup_lt_is_Some_2 updatedScenes i) as [scene Hi]; [lia|].
    cbn [forRange]. rewrite exec_seq.
    rewrite (sceneStep_exec _ _ scene) by done. cbv zeta.
    rewrite IH with (r := r); cbn [app log results progress isAnalyzing isGenerating isZipping total].
    + rewrite Hp. cbn [total]. rewrite <- app_assoc. f_equal.
      cbn [seq]. rewrite bind_cons. f_equal.
      unfold stepLog at 2. rewrite Hi, Hres, Hk. simpl.
      fold (outcomeOf i scene). fold (scenesBusy i).
      by rewrite scenesDone_step.
    + lia.
    + rewrite Hres, Hk. simpl. fold (outcomeOf i scene). fold (scenesBusy i).
      by rewrite scenesDone_step.
    + rewrite imageRequests_app, length_app, Hk. simpl. lia.
    + rewrite Hp. cbn [total]. f_equal. lia.
Qed.


(** Everything the scene phase adds to the log. *)
Definition runLog (r : AnalysisResult) : list Event :=
  [SetIsGenerating true;
   SetResults (Some (with_scenes updatedScenes r));
   SetProgress (mkProgress 0 (length updatedScenes))] ++
  (seq 0 (length updatedScenes) ≫= stepLog r).

Lemma generateScenes_exec w r :
  results (app w) = Some r →
  length (imageRequests (log w)) = k0 →
  exec (generateScenes toLowerCase generateContent analysis aspectRatio) w =
  mkWorld
    (mkAppState (isAnalyzing (app w)) true (isZipping (app w))
       (Some (with_scenes (scenesDone (length updatedScenes)) r))
       (mkProgress (length updatedScenes) (length updatedScenes)))
    (log w ++ runLog r).
Proof.
  intros Hres Hk. unfold generateScenes. fold updatedScenes.
  rewrite !exec_seq.
  rewrite sceneLoop_exec with (r := r).
  - unfold exec, setIsGenerating, setResults, setProgress, update. simpl.
    rewrite Hres. unfold runLog. by rewrite <- !app_assoc.
  - done.
  - unfold exec, setIsGenerating, setResults, setProgress, update. simpl.
    by rewrite Hres, scenesDone_0.
  - unfold exec, setIsGenerating, setResults, setProgress, update. simpl.
    rewrite !imageRequests_app, !length_app. simpl. lia.
  - done.
Qed.

Lemma generateScenes_emitted w r :
  results (app w) = Some r →
  length (imageRequests (log w)) = k0 →
  emitted (generateScenes toLowerCase generateContent analysis aspectRatio) w
  = runLog r.
Proof.
  intros Hres Hk. unfold emitted.
  rewrite (generateScenes_exec _ _ Hres Hk). simpl.
  apply drop_app_length.
Qed.


Lemma stepLog_lt r i :
  i < length updatedScenes →
  ∃ scene, updatedScenes !! i = Some scene ∧
    stepLog r i =
      [SetResults (Some (with_scenes (scenesBusy i) r));
       ImageRequest (sceneRequest scene);
       SetResults (Some (with_scenes (scenesDone (S i)) r));
       SetProgress (mkProgress (i + 1) (length updatedScenes))].
Proof.
  intros Hi. destruct (lookup_lt_is_Some_2 updatedScenes i Hi) as [scene Hs].
  exists scene. split; [done|]. unfold stepLog. by rewrite Hs.
Qed.

Lemma imageRequests_runLog r :
  imageRequests (runLog r) = sceneRequest <$> updatedScenes.
Proof.
  unfold runLog, imageRequests. rewrite omap_app, omap_bind_seq.
  cbn [omap list_omap app].
  rewrite <- bind_seq_lookup. apply bind_seq_ext. intros i _.
  unfold stepLog. by destruct (updatedScenes !! i).
Qed.

Lemma progressHistory_runLog r :
  progressHistory (runLog r) =
  (λ k, mkProgress k (length updatedScenes)) <$>
    seq 0 (S (length updatedScenes)).
Proof.
  unfold runLog, progressHistory. rewrite omap_app, omap_bind_seq.
  cbn [seq fmap list_fmap]. cbn [omap list_omap app]. f_equal.
  rewrite <- fmap_S_seq, <- list_fmap_compose, <- bind_seq_singleton.
  apply bind_seq_ext. intros i [_ Hi].
  destruct (stepLog_lt r i Hi) as (scene & _ & ->). simpl.
  by rewrite Nat.add_1_r.
Qed.


Lemma updatedScenes_lookup j s0 :
  updatedScenes !! j = Some s0 →
  ∃ s, scenes analysis !! j = Some s ∧ s0 = with_status pending s.
Proof.
  unfold updatedScenes. rewrite list_lookup_fmap.
  destruct (scenes analysis !! j) as [s|]; [|done].
  intros [= <-]. eauto.
Qed.

Lemma updatedScenes_pending j s0 :
  updatedScenes !! j = Some s0 → status s0 = pending.
Proof. by intros (s & _ & ->)%updatedScenes_lookup. Qed.

Lemma status_settle o s : terminal (status (settle o s)).
Proof. destruct o; [by left | by right]. Qed.

Lemma statusTrace_stepLog_before r i j s0 :
  updatedScenes !! j = Some s0 → i < j →
  statusTrace j (stepLog r i) = [pending; pending].
Proof.
  intros Hj Hij. pose proof (lookup_lt_Some _ _ _ Hj) as Hlt.
  destruct (stepLog_lt r i) as (scene & _ & ->); [lia|].
  unfold statusTrace. cbn [omap list_omap scenes with_scenes].
  rewrite lookup_scenesBusy_ne, !lookup_scenesDone_ge, Hj by lia.
  simpl. by rewrite (updatedScenes_pending _ _ Hj).
Qed.

Lemma statusTrace_stepLog_at r j s0 :
  updatedScenes !! j = Some s0 →
  statusTrace j (stepLog r j) =
    [generating; status (settle (outcomeOf j s0) s0)].
Proof.
  intros Hj. pose proof (lookup_lt_Some _ _ _ Hj) as Hlt.
  destruct (stepLog_lt r j) as (scene & _ & ->); [lia|].
  unfold statusTrace. cbn [omap list_omap scenes with_scenes].
  rewrite (lookup_scenesBusy_eq _ _ Hj).
  by rewrite (lookup_scenesDone_lt _ _ _ Hj) by lia.
Qed.

Lemma statusTrace_stepLog_after r i j s0 :
  updatedScenes !! j = Some s0 → j < i < length updatedScenes →
  statusTrace j (stepLog r i) =
    [status (settle (outcomeOf j s0) s0);
     status (settle (outcomeOf j s0) s0)].
Proof.
  intros Hj Hij.
  destruct (stepLog_lt r i) as (scene & _ & ->); [lia|].
  unfold statusTrace. cbn [omap list_omap scenes with_scenes].
  rewrite lookup_scenesBusy_ne by lia.
  by rewrite !(lookup_scenesDone_lt _ _ _ Hj) by lia.
Qed.

Lemma statusTrace_runLog r j s0 :
  updatedScenes !! j = Some s0 →
  statusTrace j (runLog r) =
    replicate (2 * j + 1) pending ++ [generating] ++
    replicate (2 * (length updatedScenes - j) - 1)
      (status (settle (outcomeOf j s0) s0)).
Proof.
  intros Hj. pose proof (lookup_lt_Some _ _ _ Hj) as Hlt.
  unfold runLog. unfold statusTrace at 1. rewrite omap_app, omap_bind_seq.
  fold (statusTrace j). cbn [omap list_omap scenes with_scenes].
  rewrite Hj. cbn [fmap option_fmap option_map].
  rewrite (updatedScenes_pending _ _ Hj).
  rewrite (seq_split_at 0 _ j Hlt), bind_app, bind_cons. cbn [Nat.add].
  rewrite (bind_seq_pairs _ pending)
    by (intros i Hi; apply (statusTrace_stepLog_before _ _ _ s0); [done|lia]).
  pose proof (statusTrace_stepLog_at r _ _ Hj) as Hat.
  unfold statusTrace in Hat. rewrite Hat. clear Hat.
  rewrite (bind_seq_pairs _ (status (settle (outcomeOf j s0) s0)))
    by (intros i Hi; apply statusTrace_stepLog_after; [done|lia]).
  replace (2 * j + 1) with (S (2 * j)) by lia.
  replace (2 * (length updatedScenes - j) - 1)
    with (S (2 * (length updatedScenes - S j))) by lia.
  done.
Qed.

Lemma scenesDone_all :
  scenesDone (length updatedScenes) =
  imap (λ j s, settle (outcomeOf j s) s) updatedScenes.
Proof.
  unfold scenesDone. apply imap_ext. intros j s Hj. simpl.
  apply lookup_lt_Some in Hj. by rewrite decide_True.
Qed.

Lemma runLog_results r R :
  SetResults (Some R) ∈ runLog r →
  scenes R = updatedScenes ∨
  ∃ i, scenes R = scenesBusy i ∨ scenes R = scenesDone (S i).
Proof.
  unfold runLog. rewrite elem_of_app, list_elem_of_bind.
  intros [Hin|(i & Hin & _)].
  - left. rewrite !elem_of_cons in Hin.
    destruct Hin as [?|[[= ->]|[?|?%elem_of_nil]]]; done.
  - right. exists i. unfold stepLog in Hin.
    destruct (updatedScenes !! i); [|by apply elem_of_nil in Hin].
    rewrite !elem_of_cons in Hin.
    destruct Hin as [[= ->]|[?|[[= ->]|[?|?%elem_of_nil]]]]; auto; done.
Qed.

Lemma scenesDone_shape k j s :
  scenesDone k !! j = Some s →
  ∃ s0, updatedScenes !! j = Some s0 ∧
    (s = s0 ∨ s = settle (outcomeOf j s0) s0).
Proof.
  intros Hs. destruct (updatedScenes !! j) as [s0|] eqn:Hj.
  - exists s0. split; [done|]. destruct (decide (j < k)).
    + right. rewrite (lookup_scenesDone_lt _ _ _ Hj) in Hs by done. congruence.
    + left. rewrite lookup_scenesDone_ge, Hj in Hs by lia. congruence.
  - apply lookup_ge_None in Hj. rewrite <- (length_scenesDone k) in Hj.
    apply lookup_ge_None in Hj. congruence.
Qed.

Lemma scenesBusy_shape k j s :
  scenesBusy k !! j = Some s →
  ∃ s0, updatedScenes !! j = Some s0 ∧
    (s = s0 ∨ s = markGenerating s0 ∨ s = settle (outcomeOf j s0) s0).
Proof.
  destruct (decide (k = j)) as [->|Hne].
  - unfold scenesBusy. rewrite list_lookup_alter_eq, lookup_scenesDone_ge by lia.
    destruct (updatedScenes !! j) as [s0|]; [|done].
    intros [= <-]. eauto.
  - rewrite lookup_scenesBusy_ne by done.
    intros (s0 & ? & [?|?])%scenesDone_shape; eauto.
Qed.

Lemma sceneOutcome_nonempty k s url :
  sceneOutcome k s = Returned url → url ≠ "".
Proof.
  unfold sceneOutcome, imageOfResponse.
  destruct (generateContent _ _) as [resp|]; [|done].
  destruct (firstInlineData _); [|done]. by intros [= <-].
Qed.

Lemma sceneStateOk_fresh s :
  imageUrl s = None → error s = None →
  sceneStateOk (with_status pending s) ∧
  sceneStateOk (markGenerating (with_status pending s)) ∧
  ∀ k, sceneStateOk (settle (sceneOutcome k (with_status pending s))
                       (with_status pending s)).
Proof.
  intros Hu He. unfold sceneStateOk, populated. split_and!; simpl;
    rewrite ?Hu, ?He; try (split; [by intros (v & ? & _) | done]);
    try done.
  intros k. destruct (sceneOutcome _ _) as [url|msg] eqn:Ho; simpl;
    rewrite ?Hu, ?He.
  - apply sceneOutcome_nonempty in Ho. split_and!; try done.
    + split; [done|]. intros _. eauto.
    + split; [by intros (v & ? & _) | done].
  - split_and!; try done.
    + split; [by intros (v & ? & _) | done].
    + split; [done|]. intros _. eexists. split; [done|done].
Qed.


Lemma runLog_split r k scene :
  updatedScenes !! k = Some scene →
  runLog r =
    ([SetIsGenerating true;
      SetResults (Some (with_scenes updatedScenes r));
      SetProgress (mkProgress 0 (length updatedScenes))] ++
     (seq 0 k ≫= stepLog r) ++
     [SetResults (Some (with_scenes (scenesBusy k) r));
      ImageRequest (sceneRequest scene)]) ++
    SetResults (Some (with_scenes (scenesDone (S k)) r)) ::
    SetProgress (mkProgress (k + 1) (length updatedScenes)) ::
    (seq (S k) (length updatedScenes - S k) ≫= stepLog r).
Proof.
  intros Hk. pose proof (lookup_lt_Some _ _ _ Hk) as Hlt.
  unfold runLog. rewrite (seq_split_at 0 _ k Hlt), bind_app, bind_cons.
  cbn [Nat.add]. unfold stepLog at 2. rewrite Hk.
  by rewrite <- !app_assoc.
Qed.

Lemma sceneRequest_updated :
  sceneRequest <$> updatedScenes = sceneRequest <$> scenes analysis.
Proof. unfold updatedScenes. by rewrite <- list_fmap_compose. Qed.

Lemma length_updatedScenes : length updatedScenes = length (scenes analysis).
Proof. apply length_fmap. Qed.

End RunFacts.

(** The theorems below are about [generateScenes] started in any world
    whose state holds a result, as it does after line 42 of
    [processBulk] (see [processBulk_exec]). *)
Section Orchestrator.
Variable toLowerCase : string → string.
Variable generateContent :
  nat → GenRequest → Completion GenerateContentResponse.
Variable analysis : AnalysisResult.
Variable aspectRatio : string.

Let run := generateScenes toLowerCase generateContent analysis aspectRatio.

(** C2 (as the code has it). Scene-state invariant.  Take scenes
    that come from the analysis with [imageUrl] and [error] unset.
    In every result state the scene phase installs (from the reset to
    pending at lines 46-47 on) and in the state it ends in, the state
    is never [null] and every scene has one of the four statuses, a non-empty
    [imageUrl] exactly when its status is completed and no [imageUrl]
    otherwise, a non-empty [error] exactly when its status is error
    and no [error] otherwise. *)
Theorem scene_state_invariant (w : World) (r : AnalysisResult) :
  results (app w) = Some r →
  Forall (λ s, imageUrl s = None ∧ error s = None) (scenes analysis) →
  (∀ x, SetResults x ∈ emitted run w → is_Some x) ∧
  (∀ R s, SetResults (Some R) ∈ emitted run w → s ∈ scenes R →
     (status s = pending ∨ status s = generating ∨
      status s = completed ∨ status s = error_) ∧ sceneStateOk s) ∧
  (∀ R s, results (app (exec run w)) = Some R → s ∈ scenes R →
     (status s = pending ∨ status s = generating ∨
      status s = completed ∨ status s = error_) ∧ sceneStateOk s).
Proof.
  intros Hres Hclean. rewrite Forall_lookup in Hclean.
  set (k0 := length (imageRequests (log w))).
  assert (Hshape : ∀ j s s0,
    updatedScenes analysis !! j = Some s0 →
    s = s0 ∨ s = markGenerating s0 ∨
    s = settle (outcomeOf toLowerCase generateContent analysis aspectRatio
                  k0 j s0) s0 →
    (status s = pending ∨ status s = generating ∨
      status s = completed ∨ status s = error_) ∧ sceneStateOk s).
  { intros j s s0 (s1 & Hs1 & ->)%updatedScenes_lookup Hs.
    split; [destruct (status s); auto|].
    destruct (Hclean _ _ Hs1) as [Hu He].
    destruct (sceneStateOk_fresh toLowerCase generateContent analysis
                aspectRatio s1 Hu He) as (H1 & H2 & H3).
    destruct Hs as [-> | [-> | ->]]; auto. apply H3. }
  unfold run, emitted.
  rewrite (generateScenes_exec _ _ _ _ k0 w r Hres eq_refl).
  cbn [log app results]. rewrite drop_app_length. split_and!.
  - intros x Hx. unfold runLog in Hx.
    rewrite elem_of_app, list_elem_of_bind in Hx.
    destruct Hx as [Hx|(i & Hx & _)].
    + rewrite !elem_of_cons in Hx.
      destruct Hx as [?|[[= ->]|[?|?%elem_of_nil]]]; done.
    + unfold stepLog in Hx.
      destruct (updatedScenes analysis !! i); [|by apply elem_of_nil in Hx].
      rewrite !elem_of_cons in Hx.
      destruct Hx as [[= ->]|[?|[[= ->]|[?|?%elem_of_nil]]]]; done.
  - intros R s HR Hs. apply list_elem_of_lookup in Hs as [j Hj].
    apply runLog_results in HR as [HR|[i [HR|HR]]]; rewrite HR in Hj.
    + eapply Hshape; eauto.
    + apply scenesBusy_shape in Hj as (s0 & Hs0 & Hs).
      eapply Hshape; eauto.
    + apply scenesDone_shape in Hj as (s0 & Hs0 & Hs).
      eapply Hshape; eauto. tauto.
  - intros R s [= <-] Hs. apply list_elem_of_lookup in Hs as [j Hj].
    cbn [scenes with_scenes] in Hj.
    apply scenesDone_shape in Hj as (s0 & Hs0 & Hs).
    eapply Hshape; eauto. tauto.
Qed.

(** C3. Failure isolation.  Whatever the image model answers, the
    scene phase issues exactly one request per scene, in the order of
    the scene list, so a failure never stops the loop.  The final
    scene [j] is the pending scene [j] settled by the answer to its
    own request, the [j]-th of the run.  Hence two image models that
    differ only in the answer to the request of scene [i] leave every
    scene [j ≠ i] the same. *)
Theorem failure_isolation (w : World) (r : AnalysisResult) :
  results (app w) = Some r →
  let k0 := length (imageRequests (log w)) in
  let request := sceneRequest toLowerCase analysis aspectRatio in
  let outcome :=
    sceneOutcome toLowerCase generateContent analysis aspectRatio in
  imageRequests (emitted run w) = request <$> scenes analysis ∧
  (∃ final, results (app (exec run w)) = Some final ∧
     scenes final =
       imap (λ j s, settle (outcome (k0 + j) s) (with_status pending s))
         (scenes analysis)) ∧
  (∀ g' i, (∀ k q, k ≠ k0 + i → g' k q = generateContent k q) →
     ∀ j, j ≠ i →
       (results (app (exec (generateScenes toLowerCase g' analysis
                              aspectRatio) w))
          ≫= λ R, scenes R !! j) =
       (results (app (exec run w)) ≫= λ R, scenes R !! j)).
Proof.
  intros Hres k0 request outcome. unfold run.
  rewrite (generateScenes_emitted _ _ _ _ k0 w r Hres eq_refl).
  rewrite (generateScenes_exec _ _ _ _ k0 w r Hres eq_refl).
  cbn [app results]. split_and!.
  - by rewrite imageRequests_runLog, sceneRequest_updated.
  - eexists. split; [done|]. cbn [scenes with_scenes].
    rewrite scenesDone_all. unfold updatedScenes. by rewrite imap_fmap.
  - intros g' i Hg j Hji.
    rewrite (generateScenes_exec _ g' _ _ k0 w r Hres eq_refl).
    cbn [app results mbind option_bind scenes with_scenes].
    rewrite !scenesDone_all, !list_lookup_imap.
    destruct (updatedScenes analysis !! j) as [s|]; [|done].
    cbn [fmap option_fmap option_map]. do 2 f_equal.
    unfold outcomeOf, sceneOutcome. rewrite Hg; [done|lia].
Qed.

(** C4. Run postcondition.  When the scene phase has run, the state
    holds as many scenes as the analysis gave and each is completed
    or error.  The first result state it installs has every scene
    pending, whatever status the analysis had set.  Through the
    successive result states scene [j] shows pending, then generating
    once, then one terminal status for the rest of the run. *)
Theorem run_postcondition (w : World) (r : AnalysisResult) :
  results (app w) = Some r →
  let n := length (scenes analysis) in
  (∃ final, results (app (exec run w)) = Some final ∧
     length (scenes final) = n ∧
     ∀ s, s ∈ scenes final → terminal (status s)) ∧
  (∃ rest, emitted run w =
     SetIsGenerating true ::
     SetResults (Some (with_scenes (with_status pending <$> scenes analysis)
                         r)) :: rest) ∧
  (∀ j, j < n → ∃ t, terminal t ∧
     statusTrace j (emitted run w) =
       replicate (2 * j + 1) pending ++ [generating] ++
       replicate (2 * (n - j) - 1) t).
Proof.
  intros Hres n. subst n. unfold run.
  set (k0 := length (imageRequests (log w))).
  rewrite (generateScenes_emitted _ _ _ _ k0 w r Hres eq_refl).
  rewrite (generateScenes_exec _ _ _ _ k0 w r Hres eq_refl).
  cbn [app results]. split_and!.
  - eexists. split; [done|]. cbn [scenes with_scenes]. split.
    + by rewrite length_scenesDone, length_updatedScenes.
    + intros s [j Hj]%list_elem_of_lookup.
      rewrite scenesDone_all, list_lookup_imap in Hj.
      destruct (updatedScenes analysis !! j) as [s0|]; [|done].
      injection Hj as <-. apply status_settle.
  - by eexists.
  - intros j Hj. rewrite <- length_updatedScenes in Hj.
    destruct (lookup_lt_is_Some_2 _ _ Hj) as [s0 Hs0].
    exists (status (settle (outcomeOf toLowerCase generateContent analysis
                              aspectRatio k0 j s0) s0)).
    split; [apply status_settle|].
    rewrite (statusTrace_runLog _ _ _ _ _ _ _ _ Hs0).
    by rewrite length_updatedScenes.
Qed.

(** C5. Progress accounting.  With [n] scenes the progress values
    installed are (0,n), (1,n), ..., (n,n), in this order and whatever
    the outcomes; the run ends with (n,n); among the values installed
    [current = total] holds for the last one only; and the value
    (k+1,n) is installed right after the result state in which scene
    [k] is completed or error. *)
Theorem progress_accounting (w : World) (r : AnalysisResult) :
  results (app w) = Some r →
  let n := length (scenes analysis) in
  progressHistory (emitted run w) =
    (λ k, mkProgress k n) <$> seq 0 (S n) ∧
  progress (app (exec run w)) = mkProgress n n ∧
  (∀ k p, progressHistory (emitted run w) !! k = Some p →
     current p = total p ↔ k = n) ∧
  (∀ k, k < n → ∃ before R s after,
     emitted run w =
       before ++ SetResults (Some R) ::
       SetProgress (mkProgress (k + 1) n) :: after ∧
     scenes R !! k = Some s ∧ terminal (status s)).
Proof.
  intros Hres n. subst n. unfold run.
  set (k0 := length (imageRequests (log w))).
  rewrite (generateScenes_emitted _ _ _ _ k0 w r Hres eq_refl).
  rewrite (generateScenes_exec _ _ _ _ k0 w r Hres eq_refl).
  cbn [app progress].
  rewrite progressHistory_runLog, !length_updatedScenes.
  split_and!; [done|done| |].
  - intros k p. rewrite list_lookup_fmap.
    destruct (seq 0 _ !! k) as [k'|] eqn:Hk; [|done].
    apply lookup_seq in Hk as [-> Hk]. intros [= <-]. simpl. lia.
  - intros k Hk. rewrite <- length_updatedScenes in Hk.
    destruct (lookup_lt_is_Some_2 _ _ Hk) as [s0 Hs0].
    eexists _, _, _, _. split_and!.
    + rewrite (runLog_split _ _ _ _ _ _ _ _ Hs0).
      by rewrite length_updatedScenes.
    + cbn [scenes with_scenes].
      by apply lookup_scenesDone_lt; [|lia].
    + apply status_settle.
Qed.

End Orchestrator.

(** A run of [processBulk] on a non-blank text whose analysis returns:
    the analysis is published as it came, then the scene phase runs
    with that result in the state, then the two flags are cleared. *)
Lemma processBulk_exec toLowerCase trim analyzeScript generateContent
    (inputText aspectRatio : string) (analysis : AnalysisResult) (w : World) :
  blank trim inputText = false →
  analyzeScript inputText = Returned analysis →
  let w1 :=
    mkWorld
      (mkAppState false (isGenerating (app w)) (isZipping (app w))
         (Some analysis) (progress (app w)))
      (log w ++ [SetIsAnalyzing true; AnalysisRequest inputText;
                 SetResults (Some analysis); SetIsAnalyzing false]) in
  exec (processBulk toLowerCase trim analyzeScript generateContent inputText
          aspectRatio) w =
  exec (setIsGenerating false ;; setIsAnalyzing false)
    (exec (generateScenes toLowerCase generateContent analysis aspectRatio)
       w1).
Proof.
  intros Hblank Hanalysis w1. unfold processBulk. rewrite Hblank.
  rewrite !exec_seq, exec_bind.
  unfold callAnalyzeScript at 1 2. cbn [fst snd]. rewrite Hanalysis.
  rewrite !exec_seq. do 2 f_equal.
  unfold exec, setIsAnalyzing, setResults, update, w1. simpl.
  by rewrite <- !app_assoc.
Qed.

(** When the analysis throws, no scene work is done: one alert, and
    the result state is left as it was. *)
Lemma processBulk_analysis_fails toLowerCase trim analyzeScript generateContent
    (inputText aspectRatio err : string) (w : World) :
  blank trim inputText = false →
  analyzeScript inputText = Threw err →
  let w' := exec (processBulk toLowerCase trim analyzeScript generateContent
                    inputText aspectRatio) w in
  results (app w') = results (app w) ∧
  imageRequests (emitted (processBulk toLowerCase trim analyzeScript
                            generateContent inputText aspectRatio) w) = [] ∧
  alerts (emitted (processBulk toLowerCase trim analyzeScript generateContent
                     inputText aspectRatio) w) =
    ["An error occurred during processing. Please check your script and try again."].
Proof.
  intros Hblank Hanalysis. unfold emitted, processBulk. rewrite Hblank.
  unfold exec, mbind, Run_bind, callAnalyzeScript, setIsAnalyzing,
    setIsGenerating, update, emit. simpl. rewrite Hanalysis. simpl.
  rewrite <- !app_assoc, drop_app_length. done.
Qed.

(* ================================================================== *)
(** * The artifact bundler and the single-file export *)
(* ================================================================== *)

Section NamingFacts.
Import JsString JsStringFacts.

Lemma length_string_app s t :
  String.length (s +:+ t) = String.length s + String.length t.
Proof. induction s as [|a s IH]; [done|]. rewrite app_cons. simpl. by rewrite IH. Qed.

Lemma string_app_inj_r s s' t : s +:+ t = s' +:+ t → s = s'.
Proof.
  revert s'. induction s as [|a s IH]; intros [|b s'] H.
  - done.
  - apply (f_equal String.length) in H.
    rewrite app_empty_l, length_string_app in H. simpl in H. lia.
  - apply (f_equal String.length) in H.
    rewrite app_empty_l, length_string_app in H. simpl in H. lia.
  - rewrite !app_cons in H. injection H as -> H. f_equal. by apply IH.
Qed.

Global Instance sceneFileName_inj : Inj (=) (=) sceneFileName.
Proof.
  intros i j H. unfold sceneFileName in H.
  apply (inj (String.app "scene-")) in H.
  apply string_app_inj_r, of_nat_inj in H. lia.
Qed.

Lemma truthy_populated o : truthy o = true ↔ populated o.
Proof.
  unfold populated. destruct o as [[|a s]|]; simpl; split;
    try done; try (by intros (v & [= <-] & Hv)); try (by intros (v & ? & _)).
  intros _. by eexists.
Qed.

(** [readyToBundle] decides "completed, with a non-empty image". *)
Lemma readyToBundle_iff s :
  readyToBundle s = true ↔ status s = completed ∧ populated (imageUrl s).
Proof.
  unfold readyToBundle.
  rewrite andb_true_iff, bool_decide_eq_true, truthy_populated. tauto.
Qed.
End NamingFacts.

(** The entry the bundler makes for the scene in dense position [i]. *)
Definition zipEntry (i : nat) (s : ScenePrompt) : string * option string :=
  (sceneFileName i, imageUrl s ≫= base64Data).

Section BundlerFacts.
Import JsString JsStringFacts.

Lemma zipFile_fresh nm payload zip :
  nm ∉ zip.*1 → zipFile nm payload zip = zip ++ [(nm, payload)].
Proof. intros H. unfold zipFile. by rewrite bool_decide_eq_false_2. Qed.

Lemma imap_zipEntry_names (cs : list ScenePrompt) :
  (imap zipEntry cs).*1 = sceneFileName <$> seq 0 (length cs).
Proof.
  rewrite fmap_imap. rewrite <- (imap_seq_0 cs sceneFileName).
  by apply imap_ext.
Qed.

Lemma zipLoop_prefix (cs : list ScenePrompt) k :
  Forall (λ s, truthy (imageUrl s) = true) cs →
  k ≤ length cs →
  fold_left (zipStep cs) (seq 0 k) [] = imap zipEntry (take k cs).
Proof.
  intros Hcs. induction k as [|k IH]; intros Hk; [done|].
  rewrite seq_S, fold_left_app, IH by lia. cbn [fold_left Nat.add].
  destruct (lookup_lt_is_Some_2 cs k) as [s Hs]; [lia|].
  unfold zipStep. rewrite Hs.
  pose proof (Forall_lookup_1 _ _ _ _ Hcs Hs) as Ht. cbn beta in Ht.
  destruct (imageUrl s) as [url|] eqn:Hurl; [|done]. rewrite Ht.
  rewrite zipFile_fresh.
  - rewrite (take_S_r _ _ _ Hs), imap_app. cbn [imap].
    rewrite length_take_le, Nat.add_0_r by lia.
    unfold zipEntry at 3. by rewrite Hurl.
  - rewrite imap_zipEntry_names, length_take_le by lia.
    intros (i & Hi & Hin)%list_elem_of_fmap.
    apply (inj sceneFileName) in Hi. subst i.
    apply elem_of_seq in Hin. lia.
Qed.

(** The archive handed to the encoder: one entry per bundled scene,
    in order, named by dense position. *)
Lemma filledZip_spec (cs : list ScenePrompt) :
  Forall (λ s, truthy (imageUrl s) = true) cs →
  filledZip cs = imap zipEntry cs.
Proof.
  intros Hcs. unfold filledZip.
  rewrite (zipLoop_prefix cs (length cs) Hcs) by done.
  by rewrite firstn_all.
Qed.

Lemma ready_truthy (l : list ScenePrompt) :
  Forall (λ s, truthy (imageUrl s) = true)
    (filter (λ s, readyToBundle s = true) l).
Proof.
  apply Forall_forall. intros s [Hs _]%list_elem_of_filter.
  unfold readyToBundle in Hs. by apply andb_true_iff in Hs as [? _].
Qed.

Variable generateAsync : nat → Zip → Completion string.

(** What [downloadAllAsZip] does, case by case. *)
Lemma downloadAllAsZip_exec (w : World) (res : AnalysisResult) :
  results (app w) = Some res →
  let ready := filter (λ s, readyToBundle s = true) (scenes res) in
  let zip := imap zipEntry ready in
  exec (downloadAllAsZip generateAsync) w =
  mkWorld
    (mkAppState (isAnalyzing (app w)) (isGenerating (app w)) false
       (results (app w)) (progress (app w)))
    (log w ++
     match ready with
     | [] => [SetIsZipping true; Alert "No images ready to download yet.";
              SetIsZipping false]
     | _ :: _ =>
         [SetIsZipping true; ZipGenerate zip;
          match generateAsync (length (zipGenerations (log w))) zip with
          | Returned blob => Download (BlobUrl blob) "visionbulk-scenes.zip"
          | Threw err => ConsoleErrors ["Failed to create ZIP"; err]
          end;
          SetIsZipping false]
     end).
Proof.
  intros Hres ready zip. unfold downloadAllAsZip, exec. cbv beta.
  rewrite Hres. cbv zeta. fold ready.
  rewrite filledZip_spec by apply ready_truthy. fold zip.
  destruct ready as [|s rest] eqn:Hready.
  - unfold mbind, Run_bind, setIsZipping, update, emit. simpl.
    by rewrite <- !app_assoc, Hres.
  - cbn [length Nat.eqb].
    unfold mbind, Run_bind, setIsZipping, update, emit,
      callGenerateAsync. cbn [app log fst snd].
    unfold zipGenerations at 1. rewrite omap_app, length_app.
    cbn [omap list_omap length]. rewrite Nat.add_0_r.
    fold (zipGenerations (log w)).
    destruct (generateAsync _ _); simpl; by rewrite <- !app_assoc, Hres.
Qed.

End BundlerFacts.

Section Bundler.
Import JsString JsStringFacts.
Variable generateAsync : nat → Zip → Completion string.

Let bundle := downloadAllAsZip generateAsync.

Definition Bundled (s : ScenePrompt) : Prop :=
  status s = completed ∧ populated (imageUrl s).

Lemma ready_Selected (l : list ScenePrompt) :
  Selected Bundled l (filter (λ s, readyToBundle s = true) l).
Proof.
  eapply Selected_ext; [apply readyToBundle_iff | apply Selected_filter].
Qed.

Lemma bundle_emitted (w : World) (res : AnalysisResult) :
  results (app w) = Some res →
  let ready := filter (λ s, readyToBundle s = true) (scenes res) in
  let zip := imap zipEntry ready in
  emitted bundle w =
    match ready with
    | [] => [SetIsZipping true; Alert "No images ready to download yet.";
             SetIsZipping false]
    | _ :: _ =>
        [SetIsZipping true; ZipGenerate zip;
         match generateAsync (length (zipGenerations (log w))) zip with
         | Returned blob => Download (BlobUrl blob) "visionbulk-scenes.zip"
         | Threw err => ConsoleErrors ["Failed to create ZIP"; err]
         end;
         SetIsZipping false]
    end.
Proof.
  intros Hres ready zip. unfold emitted, bundle.
  rewrite (downloadAllAsZip_exec _ _ _ Hres). cbn [log].
  apply drop_app_length.
Qed.

(** C6. The archive handed to the encoder holds exactly the scenes
    that are completed and have a non-empty image, in the order of
    the scene list; its entries are named scene-1.png to scene-k.png
    with k the number of those scenes, all names distinct, and each
    entry carries what [split(',')[1]] reads from that scene's image.
    With no such scene nothing is encoded. *)
Theorem bundler_dense_renumbering (w : World) (res : AnalysisResult) :
  results (app w) = Some res →
  ∃ bundled,
    Selected Bundled (scenes res) bundled ∧
    (bundled = [] → zipGenerations (emitted bundle w) = []) ∧
    (bundled ≠ [] → ∃ zip,
       zipGenerations (emitted bundle w) = [zip] ∧
       zip.*1 = (λ n, "scene-" +:+ of_nat n +:+ ".png") <$>
                  seq 1 (length bundled) ∧
       zip.*2 = (λ s, imageUrl s ≫= base64Data) <$> bundled ∧
       NoDup zip.*1).
Proof.
  intros Hres.
  exists (filter (λ s, readyToBundle s = true) (scenes res)).
  rewrite (bundle_emitted _ _ Hres). cbv zeta.
  split; [apply ready_Selected|].
  destruct (filter _ (scenes res)) as [|s rest] eqn:Hready;
    (split; [intros Hnil|intros Hne]); try done.
  eexists. split; [by destruct (generateAsync _ _)|].
  rewrite imap_zipEntry_names. split_and!.
  - rewrite <- fmap_S_seq, <- list_fmap_compose.
    apply list_fmap_ext. intros _ i _. simpl.
    unfold sceneFileName. by rewrite Nat.add_1_r.
  - rewrite fmap_imap. apply (imap_const (λ s, imageUrl s ≫= base64Data)).
  - apply NoDup_fmap_2; [apply _ | apply NoDup_seq].
Qed.

(** C7 (as the code has it). With no scene that is completed and has
    a non-empty image, the handler shows the alert "No images ready to
    download yet." and does nothing else: no encoding, no download.
    When the encoder throws, the handler logs "Failed to create ZIP"
    with the error to the console and ends normally: no alert, no
    download.  In every case the result state is left as it was. *)
Theorem bundler_failure_handling (w : World) (res : AnalysisResult) :
  results (app w) = Some res →
  let ready := filter (λ s, readyToBundle s = true) (scenes res) in
  results (app (exec bundle w)) = results (app w) ∧
  ((∀ s, s ∈ scenes res → ¬ Bundled s) →
     emitted bundle w =
       [SetIsZipping true; Alert "No images ready to download yet.";
        SetIsZipping false]) ∧
  (∀ err, ready ≠ [] →
     generateAsync (length (zipGenerations (log w))) (filledZip ready)
       = Threw err →
     emitted bundle w =
       [SetIsZipping true; ZipGenerate (filledZip ready);
        ConsoleError ("Failed to create ZIP " +:+ err);
        SetIsZipping false]).
Proof.
  intros Hres ready. split_and!.
  - unfold bundle. by rewrite (downloadAllAsZip_exec _ _ _ Hres).
  - intros Hnone. rewrite (bundle_emitted _ _ Hres). cbv zeta.
    fold ready. destruct ready as [|s rest] eqn:Hready; [done|].
    assert (Hs : s ∈ ready) by (rewrite Hready; left).
    apply list_elem_of_filter in Hs as [Hs Hin].
    destruct (Hnone s Hin). by apply readyToBundle_iff.
  - intros err Hne Herr. rewrite (bundle_emitted _ _ Hres). cbv zeta.
    fold ready. rewrite filledZip_spec in * by apply ready_truthy.
    destruct ready as [|s rest] eqn:Hready; [done|].
    by rewrite Herr.
Qed.

(** C8 (as the code has it). A call of the bundler leaves the
    result state alone, and the archive it hands to the encoder is
    determined by the scene list: two calls over the same scene list
    hand over the same entries, in the same order, under the same
    names; with an encoder that is a function of the archive, the
    downloads are the same too. *)
Theorem bundle_idempotent (w w' : World) (res res' : AnalysisResult) :
  results (app w) = Some res →
  results (app w') = Some res' →
  scenes res' = scenes res →
  results (app (exec bundle w)) = Some res ∧
  zipGenerations (emitted bundle w') = zipGenerations (emitted bundle w) ∧
  zipGenerations (emitted bundle (exec bundle w)) =
    zipGenerations (emitted bundle w) ∧
  ((∀ k k' z, generateAsync k z = generateAsync k' z) →
     downloads (emitted bundle w') = downloads (emitted bundle w) ∧
     downloads (emitted bundle (exec bundle w)) =
       downloads (emitted bundle w)).
Proof.
  intros Hres Hres' Hscenes.
  assert (Hafter : results (app (exec bundle w)) = Some res).
  { unfold bundle. by rewrite (downloadAllAsZip_exec _ _ _ Hres). }
  rewrite (bundle_emitted _ _ Hres), (bundle_emitted _ _ Hres'),
    (bundle_emitted _ _ Hafter). cbv zeta. rewrite Hscenes.
  destruct (filter _ (scenes res)) as [|s rest]; [done|].
  split_and!; try done.
  { by do 2 destruct (generateAsync _ _). }
  { by do 2 destruct (generateAsync _ _). }
  intros Hdet. split.
  - by rewrite (Hdet (length (zipGenerations (log w')))
                  (length (zipGenerations (log w)))).
  - by rewrite (Hdet (length (zipGenerations (log (exec bundle w))))
                  (length (zipGenerations (log w)))).
Qed.

End Bundler.

Section SingleExport.
Import JsString JsStringFacts.

Lemma filter_length_all {A} (P : A → Prop) `{!∀ x, Decision (P x)} l :
  length (filter P l) = length l ↔ Forall P l.
Proof.
  induction l as [|x l IH]; [by split|].
  rewrite filter_cons. case_decide as Hx.
  - simpl. rewrite Forall_cons. split.
    + intros [= Hlen]. split; [done|]. by apply IH.
    + intros [_ Hl]. f_equal. by apply IH.
  - pose proof (length_filter P l). split.
    + simpl. lia.
    + by intros [? _]%Forall_cons.
Qed.

Lemma clickDownload_emitted (w : World) (res : AnalysisResult)
    idx s url :
  results (app w) = Some res →
  scenes res !! idx = Some s →
  imageUrl s = Some url → url ≠ "" →
  emitted (clickDownload idx) w =
    [Download (DataUrl url) (sceneFileName idx)].
Proof.
  intros Hres Hs Hurl Hne. unfold emitted, exec, clickDownload.
  rewrite Hres. cbn [mbind option_bind]. rewrite Hs, Hurl.
  destruct url as [|a url]; [done|]. simpl.
  apply drop_app_length.
Qed.

(** C9. The download button of a completed scene at position [idx]
    of the scene list saves the scene's image under the name
    scene-<idx+1>.png, the number shown on its card.  The bundler
    names the same scene by its dense position [d], the number of
    bundled scenes before it: [d] never exceeds [idx], and the two
    names agree exactly when every earlier scene is bundled too. *)
Theorem single_export_naming (w : World) (res : AnalysisResult)
    (idx : nat) (s : ScenePrompt) (url : string) :
  results (app w) = Some res →
  scenes res !! idx = Some s →
  status s = completed →
  imageUrl s = Some url → url ≠ "" →
  let ready := filter (λ s, readyToBundle s = true) in
  let d := length (ready (take idx (scenes res))) in
  emitted (clickDownload idx) w =
    [Download (DataUrl url) ("scene-" +:+ of_nat (idx + 1) +:+ ".png")] ∧
  filledZip (ready (scenes res)) !! d =
    Some ("scene-" +:+ of_nat (d + 1) +:+ ".png", base64Data url) ∧
  d ≤ idx ∧
  (sceneFileName d = sceneFileName idx ↔
     Forall Bundled (take idx (scenes res))).
Proof.
  intros Hres Hs Hst Hurl Hne ready d.
  pose proof (lookup_lt_Some _ _ _ Hs) as Hlt.
  assert (Hready : readyToBundle s = true).
  { apply readyToBundle_iff. split; [done|]. by exists url. }
  split_and!.
  - by apply (clickDownload_emitted w res idx s url).
  - rewrite filledZip_spec by apply ready_truthy.
    rewrite <- (take_drop_middle _ _ _ Hs). unfold ready.
    rewrite filter_app, filter_cons_True by done.
    rewrite list_lookup_imap. fold (ready (take idx (scenes res))).
    fold d. rewrite list_lookup_middle by done. simpl.
    unfold zipEntry, sceneFileName. by rewrite Hurl.
  - unfold d, ready.
    pose proof (length_filter (λ s, readyToBundle s = true)
                  (take idx (scenes res))) as Hle.
    rewrite length_take_le in Hle by lia. done.
  - split.
    + intros Heq%(inj sceneFileName).
      assert (Hall : Forall (λ s, readyToBundle s = true)
                       (take idx (scenes res))).
      { apply (proj1 (filter_length_all _ _)).
        fold (ready (take idx (scenes res))).
        fold d. rewrite length_take_le by lia. done. }
      eapply Forall_impl; [exact Hall|].
      intros x Hx. by apply readyToBundle_iff.
    + intros Hall. f_equal. unfold d, ready.
      rewrite <- (length_take_le (scenes res) idx) at 2 by lia.
      apply (proj2 (filter_length_all _ _)).
      eapply Forall_impl; [exact Hall|].
      intros x Hx. by apply readyToBundle_iff.
Qed.

End SingleExport.

(* ================================================================== *)
(** * A worked run *)
(* ================================================================== *)

(** Three scenes; the analysis left stray statuses on them.  The image
    model answers the first request with an image, refuses the second
    and answers the third with a text part followed by an image. *)
Definition sampleSheet : list CharacterInfo :=
  [mkCharacterInfo "Ayesha" "tall, green scarf";
   mkCharacterInfo "Bilal" "short beard"].

Definition sampleScene (n : string) (who : list string) (st : SceneStatus)
  : ScenePrompt :=
  mkScenePrompt n "text" "prompt" who st None None.

Definition sampleAnalysis : AnalysisResult :=
  mkAnalysisResult sampleSheet "noir"
    [sampleScene "s1" ["ayesha"] completed;
     sampleScene "s2" ["Bilal"; "Ayesha"] pending;
     sampleScene "s3" [] error_].

Definition imageResponse (d : string) : GenerateContentResponse :=
  mkResponse (Some [mkCandidate (Some (mkContent (Some
    [mkPart (Some "here it is") None;
     mkPart None (Some (mkInlineData (Some d) (Some "image/jpeg")))])))]).

Definition sampleOracle (k : nat) (_ : GenRequest)
  : Completion GenerateContentResponse :=
  match k with
  | 0 => Returned (imageResponse "QUJD")
  | 1 => Threw "503"
  | _ => Returned (imageResponse "REVG")
  end.

(** The same model, except that it also answers the second request. *)
Definition kindOracle (k : nat) (q : GenRequest)
  : Completion GenerateContentResponse :=
  match k with
  | 1 => Returned (imageResponse "R0hJ")
  | _ => sampleOracle k q
  end.

Definition sampleWorld : World :=
  mkWorld (mkAppState false false false (Some sampleAnalysis)
             (mkProgress 0 0)) [].

Definition sampleRun : Run unit :=
  generateScenes JsString.asciiLowerCase sampleOracle sampleAnalysis "16:9".

Definition finishedWorld : World := exec sampleRun sampleWorld.

Definition finishedResult : AnalysisResult :=
  mkAnalysisResult sampleSheet "noir"
    [mkScenePrompt "s1" "text" "prompt" ["ayesha"] completed
       (Some "data:image/png;base64,QUJD") None;
     mkScenePrompt "s2" "text" "prompt" ["Bilal"; "Ayesha"] error_
       None (Some "Failed to generate image");
     mkScenePrompt "s3" "text" "prompt" [] completed
       (Some "data:image/png;base64,REVG") None].

Definition steadyEncoder (_ : nat) (z : Zip) : Completion string :=
  Returned "PK".

Definition failingEncoder (_ : nat) (_ : Zip) : Completion string :=
  Threw "out of memory".

Example sample_run_result : results (app finishedWorld) = Some finishedResult.
Proof. reflexivity. Qed.

Example sample_run_progress :
  progressHistory (log finishedWorld) =
    [mkProgress 0 3; mkProgress 1 3; mkProgress 2 3; mkProgress 3 3].
Proof. reflexivity. Qed.

Example sample_run_contexts :
  promptText <$> imageRequests (log finishedWorld) =
    [finalPrompt "prompt" "Ayesha (tall, green scarf)" "noir";
     finalPrompt "prompt" "Ayesha (tall, green scarf); Bilal (short beard)"
       "noir";
     finalPrompt "prompt" "No specific character" "noir"].
Proof. reflexivity. Qed.

(** The bundler example of the specification: scene 2 failed, so the
    archive has scene-1.png and scene-2.png, the latter being scene 3. *)
Example sample_bundle :
  emitted (downloadAllAsZip steadyEncoder) finishedWorld =
    [SetIsZipping true;
     ZipGenerate [("scene-1.png", Some "QUJD"); ("scene-2.png", Some "REVG")];
     Download (BlobUrl "PK") "visionbulk-scenes.zip";
     SetIsZipping false].
Proof. reflexivity. Qed.

(** Before any image exists the bundler only alerts. *)
Example sample_bundle_empty :
  emitted (downloadAllAsZip steadyEncoder) sampleWorld =
    [SetIsZipping true; Alert "No images ready to download yet.";
     SetIsZipping false].
Proof. reflexivity. Qed.

(** A whole [processBulk] call from the initial state. *)
Example sample_processBulk :
  let w := exec (processBulk JsString.asciiLowerCase asciiTrim
                   (λ _, Returned sampleAnalysis) sampleOracle
                   "Once upon a time" "16:9")
             (mkWorld initialState []) in
  results (app w) = Some finishedResult ∧
  progress (app w) = mkProgress 3 3 ∧
  isGenerating (app w) = false ∧ isAnalyzing (app w) = false.
Proof. repeat split. Qed.

Example sample_processBulk_blank :
  exec (processBulk JsString.asciiLowerCase asciiTrim (λ _, Returned sampleAnalysis)
          sampleOracle "   " "16:9") (mkWorld initialState [])
  = mkWorld initialState [].
Proof. reflexivity. Qed.

(* ================================================================== *)
(** * The theorems at the worked run *)
(* ================================================================== *)

Lemma resolver_correct_witness :
  resolveContext JsString.asciiLowerCase sampleSheet ["Bilal"; "AYESHA"] =
    "Ayesha (tall, green scarf); Bilal (short beard)" ∧
  resolveContext JsString.asciiLowerCase sampleSheet ["ayesha"] =
    "Ayesha (tall, green scarf)" ∧
  resolveContext JsString.asciiLowerCase sampleSheet ["Zed"] =
    "No specific character".
Proof.
  assert (Hpin : ∀ present,
    resolveContext JsString.asciiLowerCase sampleSheet present =
      match filter (λ c, isPresent JsString.asciiLowerCase present c = true)
              sampleSheet with
      | [] => "No specific character"
      | (_ :: _) as kept =>
          String.concat "; "
            ((λ c, name c +:+ " (" +:+ description c +:+ ")") <$> kept)
      end).
  { intros present.
    destruct (resolver_correct JsString.asciiLowerCase sampleSheet present)
      as (matched & Hsel & _ & Hres & _).
    rewrite Hres.
    assert (Hm : matched =
              filter (λ c, isPresent JsString.asciiLowerCase present c = true)
                sampleSheet).
    { eapply Selected_unique; [exact Hsel|].
      eapply Selected_ext; [apply isPresent_iff | apply Selected_filter]. }
    rewrite Hm. by destruct (filter _ sampleSheet). }
  split_and!; rewrite Hpin; reflexivity.
Defined.

Lemma scene_state_invariant_witness :
  results (app sampleWorld) = Some sampleAnalysis ∧
  Forall (λ s, imageUrl s = None ∧ error s = None) (scenes sampleAnalysis) ∧
  Forall sceneStateOk (scenes finishedResult).
Proof.
  assert (Hclean : Forall (λ s, imageUrl s = None ∧ error s = None)
                     (scenes sampleAnalysis)) by (repeat constructor).
  split_and!; [reflexivity | exact Hclean |].
  apply Forall_forall. intros s Hs.
  exact (proj2 (proj2 (proj2
    (scene_state_invariant JsString.asciiLowerCase sampleOracle
       sampleAnalysis "16:9" sampleWorld sampleAnalysis eq_refl Hclean))
    finishedResult s eq_refl Hs)).
Defined.

(** C2, where the specification asks for more than the code does: it
    has the invariant at every point of a run.  The first result state
    a run installs is the analysis as it arrived (line 42), before the
    reset to pending of lines 46-47.  Here the analysis has [imageUrl]
    and [error] unset everywhere, yet its first scene says completed
    and its third says error: the installed state has a completed
    scene without an image and a failed scene without an error text. *)
Lemma raw_analysis_breaks_scene_invariant :
  Forall (λ s, imageUrl s = None ∧ error s = None) (scenes sampleAnalysis) ∧
  emitted (processBulk JsString.asciiLowerCase asciiTrim
             (λ _, Returned sampleAnalysis) sampleOracle
             "Once upon a time" "16:9") (mkWorld initialState []) !! 2
    = Some (SetResults (Some sampleAnalysis)) ∧
  scenes sampleAnalysis !! 0 = Some (sampleScene "s1" ["ayesha"] completed) ∧
  scenes sampleAnalysis !! 2 = Some (sampleScene "s3" [] error_) ∧
  ¬ sceneStateOk (sampleScene "s1" ["ayesha"] completed) ∧
  ¬ sceneStateOk (sampleScene "s3" [] error_).
Proof.
  split_and!; [repeat constructor | reflexivity | reflexivity | reflexivity | |].
  - intros ([_ H] & _). destruct (H eq_refl) as (v & Hv & _). discriminate Hv.
  - intros (_ & [_ H] & _). destruct (H eq_refl) as (v & Hv & _).
    discriminate Hv.
Qed.


Lemma failure_isolation_witness :
  results (app sampleWorld) = Some sampleAnalysis ∧
  (results (app (exec (generateScenes JsString.asciiLowerCase kindOracle
                         sampleAnalysis "16:9") sampleWorld))
     ≫= λ R, scenes R !! 2) =
  (results (app finishedWorld) ≫= λ R, scenes R !! 2).
Proof.
  split; [reflexivity|].
  pose proof (failure_isolation JsString.asciiLowerCase sampleOracle
                sampleAnalysis "16:9" sampleWorld sampleAnalysis eq_refl)
    as H.
  cbv zeta in H. destruct H as (_ & _ & H).
  apply (H kindOracle 1); [|lia].
  intros k q Hk.
  destruct k as [|[|k]]; [reflexivity | by destruct Hk | reflexivity].
Defined.

Lemma run_postcondition_witness :
  results (app sampleWorld) = Some sampleAnalysis ∧
  ∃ t, terminal t ∧
    statusTrace 1 (emitted sampleRun sampleWorld) =
      replicate 3 pending ++ [generating] ++ replicate 3 t.
Proof.
  split; [reflexivity|].
  pose proof (run_postcondition JsString.asciiLowerCase sampleOracle
                sampleAnalysis "16:9" sampleWorld sampleAnalysis eq_refl)
    as H.
  cbv zeta in H. destruct H as (_ & _ & H).
  apply (H 1). simpl. lia.
Defined.

Lemma progress_accounting_witness :
  results (app sampleWorld) = Some sampleAnalysis ∧
  progressHistory (emitted sampleRun sampleWorld) =
    [mkProgress 0 3; mkProgress 1 3; mkProgress 2 3; mkProgress 3 3].
Proof.
  split; [reflexivity|].
  exact (proj1 (progress_accounting JsString.asciiLowerCase sampleOracle
                  sampleAnalysis "16:9" sampleWorld sampleAnalysis eq_refl)).
Defined.

Lemma bundler_dense_renumbering_witness :
  results (app finishedWorld) = Some finishedResult ∧
  ∃ bundled,
    Selected Bundled (scenes finishedResult) bundled ∧
    (bundled = [] →
       zipGenerations (emitted (downloadAllAsZip steadyEncoder)
                         finishedWorld) = []) ∧
    (bundled ≠ [] → ∃ zip,
       zipGenerations (emitted (downloadAllAsZip steadyEncoder)
                         finishedWorld) = [zip] ∧
       zip.*1 = (λ n, "scene-" +:+ JsString.of_nat n +:+ ".png") <$>
                  seq 1 (length bundled) ∧
       zip.*2 = (λ s, imageUrl s ≫= base64Data) <$> bundled ∧
       NoDup zip.*1).
Proof.
  split; [reflexivity|].
  exact (bundler_dense_renumbering steadyEncoder finishedWorld
           finishedResult eq_refl).
Defined.

Lemma bundler_failure_handling_witness :
  results (app finishedWorld) = Some finishedResult ∧
  emitted (downloadAllAsZip failingEncoder) finishedWorld =
    [SetIsZipping true;
     ZipGenerate [("scene-1.png", Some "QUJD"); ("scene-2.png", Some "REVG")];
     ConsoleError "Failed to create ZIP out of memory";
     SetIsZipping false].
Proof.
  split; [reflexivity|].
  pose proof (bundler_failure_handling failingEncoder finishedWorld
                finishedResult eq_refl) as H.
  cbv zeta in H. destruct H as (_ & _ & H).
  apply (H "out of memory"); [discriminate | reflexivity].
Defined.

(** C7, where the specification asks for more than the code does: it
    has encoding failures reported to the caller.  One image is ready
    and the encoder throws: the handler raises no alert and starts no
    download; the failure goes to the console only. *)
Lemma bundler_encoding_failure_not_reported :
  failingEncoder 0
    (filledZip (filter (λ s, readyToBundle s = true) (scenes finishedResult)))
    = Threw "out of memory" ∧
  alerts (emitted (downloadAllAsZip failingEncoder) finishedWorld) = [] ∧
  downloads (emitted (downloadAllAsZip failingEncoder) finishedWorld) = [] ∧
  ConsoleError "Failed to create ZIP out of memory"
    ∈ emitted (downloadAllAsZip failingEncoder) finishedWorld.
Proof.
  split_and!; [reflexivity | reflexivity | reflexivity |].
  apply list_elem_of_In. vm_compute. tauto.
Qed.

Lemma bundle_idempotent_witness :
  results (app finishedWorld) = Some finishedResult ∧
  zipGenerations
    (emitted (downloadAllAsZip steadyEncoder)
       (exec (downloadAllAsZip steadyEncoder) finishedWorld)) =
  zipGenerations (emitted (downloadAllAsZip steadyEncoder) finishedWorld).
Proof.
  split; [reflexivity|].
  exact (proj1 (proj2 (proj2
    (bundle_idempotent steadyEncoder finishedWorld finishedWorld
       finishedResult finishedResult eq_refl eq_refl eq_refl)))).
Defined.

(** An encoder whose output carries a stamp that changes from one
    encoding to the next, as the date [JSZip] writes into each entry
    does. *)
Definition stampingEncoder (k : nat) (_ : Zip) : Completion string :=
  Returned ("PK@" +:+ JsString.of_nat k).

(** C8, where the specification asks for more than the code does: it
    has the two archives byte-identical.  The handler gives the
    encoder the same entries both times and leaves the scene list as
    it was, but the bytes are the encoder's: with the stamping encoder
    two calls in a row over the unchanged scene list download
    different archives. *)
Lemma bundle_bytes_are_the_encoders :
  results (app (exec (downloadAllAsZip stampingEncoder) finishedWorld))
    = results (app finishedWorld) ∧
  zipGenerations
    (emitted (downloadAllAsZip stampingEncoder)
       (exec (downloadAllAsZip stampingEncoder) finishedWorld)) =
  zipGenerations (emitted (downloadAllAsZip stampingEncoder) finishedWorld) ∧
  downloads (emitted (downloadAllAsZip stampingEncoder) finishedWorld)
    = [(BlobUrl "PK@0", "visionbulk-scenes.zip")] ∧
  downloads
    (emitted (downloadAllAsZip stampingEncoder)
       (exec (downloadAllAsZip stampingEncoder) finishedWorld))
    = [(BlobUrl "PK@1", "visionbulk-scenes.zip")] ∧
  downloads
    (emitted (downloadAllAsZip stampingEncoder)
       (exec (downloadAllAsZip stampingEncoder) finishedWorld))
    ≠ downloads (emitted (downloadAllAsZip stampingEncoder) finishedWorld).
Proof.
  split_and!; [reflexivity | reflexivity | reflexivity | reflexivity |].
  vm_compute. discriminate.
Qed.


Lemma single_export_naming_witness :
  results (app finishedWorld) = Some finishedResult ∧
  emitted (clickDownload 2) finishedWorld =
    [Download (DataUrl "data:image/png;base64,REVG") "scene-3.png"] ∧
  filledZip (filter (λ s, readyToBundle s = true) (scenes finishedResult))
    !! 1 = Some ("scene-2.png", Some "REVG").
Proof.
  split; [reflexivity|].
  pose proof (single_export_naming finishedWorld finishedResult 2
                (mkScenePrompt "s3" "text" "prompt" [] completed
                   (Some "data:image/png;base64,REVG") None)
                "data:image/png;base64,REVG"
                eq_refl eq_refl eq_refl eq_refl) as H.
  cbv zeta in H. destruct H as (H1 & H2 & _); [discriminate|].
  split; [exact H1 | exact H2].
Defined.

Lemma generateImage_payload_witness :
  (generateImage sampleOracle "prompt" "Ayesha (tall, green scarf)" "noir"
     "16:9" (mkWorld initialState [])).1
    = Returned "data:image/png;base64,QUJD" ∧
  base64Data "data:image/png;base64,QUJD" = Some "QUJD" ∧
  (generateImage (λ _ _, Returned (mkResponse (Some [])))
     "prompt" "Ayesha (tall, green scarf)" "noir" "16:9"
     (mkWorld initialState [])).1
    = Threw "No image data received from API".
Proof.
  pose proof (generateImage_payload sampleOracle
                "prompt" "Ayesha (tall, green scarf)" "noir" "16:9"
                (mkWorld initialState []) (imageResponse "QUJD")
                [mkPart (Some "here it is") None;
                 mkPart None
                   (Some (mkInlineData (Some "QUJD") (Some "image/jpeg")))]
                eq_refl
                (FCP_parts (imageResponse "QUJD") _ [] _ _
                   eq_refl eq_refl eq_refl)) as H.
  cbv zeta in H. destruct H as (_ & _ & Hret & _).
  destruct (Hret [mkPart (Some "here it is") None]
              (mkPart None
                 (Some (mkInlineData (Some "QUJD") (Some "image/jpeg"))))
              [] (mkInlineData (Some "QUJD") (Some "image/jpeg")) "QUJD"
              eq_refl) as (H1 & _ & H3).
  { intros q [-> | []%elem_of_nil]%elem_of_cons. reflexivity. }
  { reflexivity. }
  { reflexivity. }
  pose proof (generateImage_payload
                (λ _ _, Returned (mkResponse (Some [])))
                "prompt" "Ayesha (tall, green scarf)" "noir" "16:9"
                (mkWorld initialState []) (mkResponse (Some [])) []
                eq_refl (FCP_no_candidate (mkResponse (Some [])) eq_refl))
    as H'.
  cbv zeta in H'. destruct H' as (_ & Hthrow & _).
  split_and!; [exact H1 | exact (H3 eq_refl) | apply Hthrow].
  by intros p ?%elem_of_nil.
Defined.

(** A response whose only part has an [inlineData] object with a mime
    type and no [data]. *)
Definition emptyImageResponse : GenerateContentResponse :=
  mkResponse (Some [mkCandidate (Some (mkContent (Some
    [mkPart None (Some (mkInlineData None (Some "image/png")))])))]).

(** C10, where the specification asks for more than the code does: it
    has every result be the inline data of the part, prefixed, in the
    format the bundler decodes.  The loop tests [part.inlineData], not
    its [data]: on a part whose [inlineData] has no [data] the call
    returns the prefix followed by the text undefined, and the bundler
    reads that text back as if it were the image. *)
Lemma generateImage_returns_undefined_payload :
  FirstCandidateParts emptyImageResponse
    [mkPart None (Some (mkInlineData None (Some "image/png")))] ∧
  data (mkInlineData None (Some "image/png")) = None ∧
  (generateImage (λ _ _, Returned emptyImageResponse)
     "prompt" "Ayesha (tall, green scarf)" "noir" "16:9"
     (mkWorld initialState [])).1
    = Returned "data:image/png;base64,undefined" ∧
  base64Data "data:image/png;base64,undefined" = Some "undefined".
Proof.
  split_and!; [|reflexivity..].
  by eapply FCP_parts.
Qed.


(** The numbering of the export and of the bundle differ for scene 3
    of the worked run. *)
Example export_and_bundle_names_differ :
  sceneFileName 2 = "scene-3.png" ∧ sceneFileName 1 = "scene-2.png" ∧
  sceneFileName 2 ≠ sceneFileName 1.
Proof. repeat split. discriminate. Qed.

(* ================================================================== *)
(** * More of [App.tsx]: what the page shows *)
(* ================================================================== *)

(** [hasAnyCompleted] (line 139), as the condition it is used as:
    [results?.scenes.some(s => s.imageUrl && s.status === 'completed')];
    with no result the value is [undefined], which is falsy. *)
Definition hasAnyCompleted (st : AppState) : bool :=
  match results st with
  | Some r => existsb readyToBundle (scenes r)
  | None => false
  end.

(** The [disabled] attribute of the Generate button (line 208):
    [isAnalyzing || isGenerating || !inputText.trim()]. *)
Definition generateDisabled (trim : string → string) (st : AppState)
    (inputText : string) : bool :=
  isAnalyzing st || isGenerating st || blank trim inputText.

(** What the card of a scene shows (lines 293-322). *)
Inductive CardView :=
  | ShowImage (src : string)
  | ShowSpinner
  | ShowError (msg : string)
  | ShowHourglass.

(** [scene.imageUrl ? ... : scene.status === 'generating' ? ... :
     scene.status === 'error' ? ... : ...]; the error text is
    [scene.error || 'Generation Failed']. *)
Definition cardView (scene : ScenePrompt) : CardView :=
  match imageUrl scene with
  | Some (String a u) => ShowImage (String a u)
  | _ =>
      match status scene with
      | generating => ShowSpinner
      | error_ =>
          ShowError (match error scene with
                     | Some (String a e) => String a e
                     | _ => "Generation Failed"
                     end)
      | _ => ShowHourglass
      end
  end.


(* ================================================================== *)
(** * Whole runs of [processBulk] *)
(* ================================================================== *)

Section WholeRun.
Variable toLowerCase : string → string.
Variable trim : string → string.
Variable analyzeScript : string → Completion AnalysisResult.
Variable generateContent :
  nat → GenRequest → Completion GenerateContentResponse.
Variables inputText aspectRatio : string.

Let bulk : Run unit :=
  processBulk toLowerCase trim analyzeScript generateContent inputText aspectRatio.

Definition failureAlert : string :=
  "An error occurred during processing. Please check your script and try again.".

(** A run whose analysis returns, from start to end. *)
Lemma processBulk_returned_exec (analysis : AnalysisResult) (w : World) :
  blank trim inputText = false →
  analyzeScript inputText = Returned analysis →
  let k0 := length (imageRequests (log w)) in
  let n := length (scenes analysis) in
  exec bulk w =
  mkWorld
    (mkAppState false false (isZipping (app w))
       (Some (with_scenes
                (scenesDone toLowerCase generateContent analysis aspectRatio
                   k0 n) analysis))
       (mkProgress n n))
    (log w ++
     [SetIsAnalyzing true; AnalysisRequest inputText;
      SetResults (Some analysis); SetIsAnalyzing false] ++
     runLog toLowerCase generateContent analysis aspectRatio k0 analysis ++
     [SetIsGenerating false; SetIsAnalyzing false]).
Proof.
  intros Hblank Hret k0 n. unfold bulk.
  rewrite (processBulk_exec _ _ _ _ _ _ analysis w Hblank Hret). cbv zeta.
  set (w1 := mkWorld _ _).
  assert (Hres : results (app w1) = Some analysis) by done.
  assert (Hk : length (imageRequests (log w1)) = k0).
  { unfold w1. cbn [log]. rewrite imageRequests_app, length_app. simpl.
    unfold k0. lia. }
  rewrite (generateScenes_exec _ _ _ _ k0 w1 analysis Hres Hk).
  rewrite length_updatedScenes. fold n.
  unfold exec, mbind, Run_bind, setIsGenerating, setIsAnalyzing, update, w1.
  cbn [app log snd isAnalyzing isGenerating isZipping results progress].
  by rewrite <- !app_assoc.
Qed.

(** A run whose analysis throws, from start to end. *)
Lemma processBulk_threw_exec (err : string) (w : World) :
  blank trim inputText = false →
  analyzeScript inputText = Threw err →
  exec bulk w =
  mkWorld
    (mkAppState false false (isZipping (app w)) (results (app w))
       (progress (app w)))
    (log w ++
     [SetIsAnalyzing true; AnalysisRequest inputText; ConsoleError err;
      Alert failureAlert; SetIsGenerating false; SetIsAnalyzing false]).
Proof.
  intros Hblank Hthrew. unfold bulk, processBulk. rewrite Hblank.
  unfold exec, mbind, Run_bind, callAnalyzeScript, setIsAnalyzing,
    setIsGenerating, update, emit. simpl. rewrite Hthrew. simpl.
  by rewrite <- !app_assoc.
Qed.

End WholeRun.

Section WholeRunProperties.
Variable toLowerCase : string → string.
Variable trim : string → string.
Variable analyzeScript : string → Completion AnalysisResult.
Variable generateContent :
  nat → GenRequest → Completion GenerateContentResponse.
Variables inputText aspectRatio : string.

Let bulk : Run unit :=
  processBulk toLowerCase trim analyzeScript generateContent inputText aspectRatio.

Lemma processBulk_blank_exec (w : World) :
  blank trim inputText = true → exec bulk w = w.
Proof.
  intros Hblank. unfold bulk, processBulk. rewrite Hblank. by destruct w.
Qed.

Lemma processBulk_emitted_head (w : World) :
  blank trim inputText = false →
  ∃ rest, emitted bulk w =
    SetIsAnalyzing true :: AnalysisRequest inputText :: rest.
Proof.
  intros Hblank. unfold emitted.
  destruct (analyzeScript inputText) as [analysis|err] eqn:Hout.
  - unfold bulk.
    rewrite (processBulk_returned_exec _ _ _ _ _ _ _ w Hblank Hout).
    cbn [log]. rewrite drop_app_length. by eexists.
  - unfold bulk. rewrite (processBulk_threw_exec _ _ _ _ _ _ _ w Hblank Hout).
    cbn [log]. rewrite drop_app_length. by eexists.
Qed.

(** X1. The guard of [processBulk].  On a text that [trim] leaves
    empty the handler does nothing at all: no state change, no event.
    On any other text it starts by raising [isAnalyzing] and sending
    the text to the analysis, so it emits nothing exactly when the
    trimmed text is empty; and whenever the Generate button is enabled
    the trimmed text is not empty, so a click always reaches the
    analysis. *)
Theorem processBulk_blank_guard (w : World) :
  (blank trim inputText = true → exec bulk w = w) ∧
  (emitted bulk w = [] ↔ blank trim inputText = true) ∧
  (generateDisabled trim (app w) inputText = false →
     ∃ rest, emitted bulk w =
       SetIsAnalyzing true :: AnalysisRequest inputText :: rest).
Proof.
  split_and!.
  - apply processBulk_blank_exec.
  - destruct (blank trim inputText) eqn:Hblank.
    + split; [done|]. intros _. unfold emitted.
      rewrite (processBulk_blank_exec w Hblank). apply drop_all.
    + destruct (processBulk_emitted_head w Hblank) as [rest ->].
      split; discriminate.
  - unfold generateDisabled. intros Hd.
    apply orb_false_iff in Hd as [_ Hblank].
    by apply processBulk_emitted_head.
Qed.

(** X2. Run-level failure.  When the analysis throws on a text that
    [trim] does not leave empty, the run is over at once: the error
    goes to the console, one alert is shown, both busy flags are
    cleared, no image is requested and the results and the progress
    counter are left as they were. *)
Theorem analysis_failure_aborts_run (err : string) (w : World) :
  blank trim inputText = false →
  analyzeScript inputText = Threw err →
  emitted bulk w =
    [SetIsAnalyzing true; AnalysisRequest inputText; ConsoleError err;
     Alert failureAlert; SetIsGenerating false; SetIsAnalyzing false] ∧
  imageRequests (emitted bulk w) = [] ∧
  results (app (exec bulk w)) = results (app w) ∧
  progress (app (exec bulk w)) = progress (app w).
Proof.
  intros Hblank Hthrew. unfold emitted, bulk.
  rewrite (processBulk_threw_exec _ _ _ _ _ _ _ w Hblank Hthrew).
  cbn [log app results progress]. by rewrite drop_app_length.
Qed.

(** X3. The [finally] block.  However a run on a text that [trim]
    does not leave empty goes (the analysis throws, or every image
    request fails, or all succeed), it ends with [isAnalyzing] and
    [isGenerating] false; the last two events are the two resets;
    [isZipping] is not touched. *)
Theorem processBulk_clears_busy_flags (w : World) :
  blank trim inputText = false →
  isAnalyzing (app (exec bulk w)) = false ∧
  isGenerating (app (exec bulk w)) = false ∧
  isZipping (app (exec bulk w)) = isZipping (app w) ∧
  ∃ before, emitted bulk w =
    before ++ [SetIsGenerating false; SetIsAnalyzing false].
Proof.
  intros Hblank. unfold emitted, bulk.
  destruct (analyzeScript inputText) as [analysis|err] eqn:Hout.
  - rewrite (processBulk_returned_exec _ _ _ _ _ _ _ w Hblank Hout).
    cbn [log app isAnalyzing isGenerating isZipping].
    rewrite drop_app_length. split_and!; try done.
    eexists (_ ++ _). by rewrite <- app_assoc.
  - rewrite (processBulk_threw_exec _ _ _ _ _ _ _ w Hblank Hout).
    cbn [log app isAnalyzing isGenerating isZipping].
    rewrite drop_app_length. split_and!; try done.
    by exists [SetIsAnalyzing true; AnalysisRequest inputText;
               ConsoleError err; Alert failureAlert].
Qed.

(** X4. A run starts afresh.  When the analysis returns a result
    with its scene list, the results a run ends with are decided by
    that result and by the answers of the image model; no result,
    image or error text the state held before the click survives. *)
Theorem run_starts_afresh (analysis : AnalysisResult) (w w' : World) :
  blank trim inputText = false →
  analyzeScript inputText = Returned analysis →
  length (imageRequests (log w)) = length (imageRequests (log w')) →
  results (app (exec bulk w)) = results (app (exec bulk w')).
Proof.
  intros Hblank Hret Hk. unfold bulk.
  rewrite (processBulk_returned_exec _ _ _ _ _ _ _ w Hblank Hret).
  rewrite (processBulk_returned_exec _ _ _ _ _ _ _ w' Hblank Hret).
  cbn [app results]. by rewrite Hk.
Qed.

End WholeRunProperties.

(* ================================================================== *)
(** * More about the scene phase *)
(* ================================================================== *)

(** Two scene objects with the same analysis-given fields. *)
Definition sameInputs (s s0 : ScenePrompt) : Prop :=
  id s = id s0 ∧ originalText s = originalText s0 ∧
  refinedPrompt s = refinedPrompt s0 ∧
  presentCharacters s = presentCharacters s0.

Section ScenePhaseProperties.
Variable toLowerCase : string → string.
Variable generateContent :
  nat → GenRequest → Completion GenerateContentResponse.
Variable analysis : AnalysisResult.
Variable aspectRatio : string.

Let run := generateScenes toLowerCase generateContent analysis aspectRatio.

Lemma sameInputs_shapes o s1 s :
  s = with_status pending s1 ∨ s = markGenerating (with_status pending s1) ∨
  s = settle o (with_status pending s1) →
  sameInputs s s1.
Proof. intros [-> | [-> | ->]]; [done | done | by destruct o]. Qed.

Lemma runLog_results_form k0 r R :
  SetResults (Some R) ∈
    runLog toLowerCase generateContent analysis aspectRatio k0 r →
  ∃ l, R = with_scenes l r ∧
    (l = updatedScenes analysis ∨
     ∃ i, l = scenesBusy toLowerCase generateContent analysis aspectRatio k0 i
          ∨ l = scenesDone toLowerCase generateContent analysis aspectRatio
                  k0 (S i)).
Proof.
  unfold runLog. rewrite elem_of_app, list_elem_of_bind.
  intros [Hin|(i & Hin & _)].
  - rewrite !elem_of_cons in Hin.
    destruct Hin as [?|[[= ->]|[?|?%elem_of_nil]]]; try done.
    eexists. split; [done|]. by left.
  - unfold stepLog in Hin.
    destruct (updatedScenes analysis !! i); [|by apply elem_of_nil in Hin].
    rewrite !elem_of_cons in Hin.
    destruct Hin as [[= ->]|[?|[[= ->]|[?|?%elem_of_nil]]]]; try done.
    + eexists. split; [done|]. right. exists i. by left.
    + eexists. split; [done|]. right. exists i. by right.
Qed.

(** X5. What a run never writes.  In every result state the scene
    phase installs, and in the one it ends with, the character sheet
    and the visual style are those the state held when the phase
    began, there are as many scenes as the analysis gave, and scene
    [j] still has the [id], [originalText], [refinedPrompt] and
    [presentCharacters] of the analysis' scene [j]: only [status],
    [imageUrl] and [error] are ever written. *)
Theorem scene_phase_preserves_inputs (w : World) (r R : AnalysisResult) :
  results (app w) = Some r →
  SetResults (Some R) ∈ emitted run w ∨
    results (app (exec run w)) = Some R →
  characters R = characters r ∧ visualStyle R = visualStyle r ∧
  length (scenes R) = length (scenes analysis) ∧
  ∀ j s, scenes R !! j = Some s →
    ∃ s0, scenes analysis !! j = Some s0 ∧ sameInputs s s0.
Proof.
  intros Hres HR. set (k0 := length (imageRequests (log w))).
  assert (Hform : ∃ l, R = with_scenes l r ∧
    (l = updatedScenes analysis ∨
     ∃ i, l = scenesBusy toLowerCase generateContent analysis aspectRatio k0 i
          ∨ l = scenesDone toLowerCase generateContent analysis aspectRatio
                  k0 i)).
  { destruct HR as [HR|HR]; unfold run in HR.
    - rewrite (generateScenes_emitted _ _ _ _ k0 w r Hres eq_refl) in HR.
      apply runLog_results_form in HR as (l & -> & [->|[i [->| ->]]]);
        eexists; (split; [done|]); eauto.
    - rewrite (generateScenes_exec _ _ _ _ k0 w r Hres eq_refl) in HR.
      injection HR as <-. eexists. split; [done|]. eauto. }
  destruct Hform as (l & -> & Hl). cbn [characters visualStyle scenes
    with_scenes]. split_and!; try done.
  - destruct Hl as [->|[i [->| ->]]]; unfold scenesBusy;
      rewrite ?length_alter, ?length_scenesDone; apply length_updatedScenes.
  - intros j s Hs.
    assert (∃ s0, updatedScenes analysis !! j = Some s0 ∧
      (s = s0 ∨ s = markGenerating s0 ∨
       s = settle (outcomeOf toLowerCase generateContent analysis aspectRatio
                     k0 j s0) s0)) as (s0 & Hs0 & Hshape).
    { destruct Hl as [->|[i [->| ->]]].
      - eauto.
      - by apply scenesBusy_shape in Hs.
      - apply scenesDone_shape in Hs as (s0 & ? & [?|?]); eauto. }
    apply updatedScenes_lookup in Hs0 as (s1 & Hs1 & ->).
    exists s1. split; [done|]. by eapply sameInputs_shapes.
Qed.

(** X6. How a scene ends, by the answer of the image model.  When
    the request of scene [j] throws, and when the first candidate of
    the answer has no part with an [inlineData] (or the candidates,
    its content or its parts are missing), the scene ends in error
    with the fixed text "Failed to generate image": the cause is not
    kept.  Otherwise it ends completed, its image being
    "data:image/png;base64," followed by the data text of the first
    such part (by "undefined" when that part has no data text).  The
    field the outcome does not write ([error] on success, [imageUrl]
    on failure) keeps what the analysis gave. *)
Theorem final_scene_by_api_answer (w : World) (r : AnalysisResult)
    (j : nat) (s0 : ScenePrompt) :
  results (app w) = Some r →
  scenes analysis !! j = Some s0 →
  let failed (s : ScenePrompt) :=
    status s = error_ ∧ error s = Some "Failed to generate image" ∧
    imageUrl s = imageUrl s0 in
  let answer :=
    generateContent (length (imageRequests (log w)) + j)
      (sceneRequest toLowerCase analysis aspectRatio s0) in
  ∃ s, (results (app (exec run w)) ≫= λ R, scenes R !! j) = Some s ∧
    (∀ msg, answer = Threw msg → failed s) ∧
    (∀ response ps,
       answer = Returned response → FirstCandidateParts response ps →
       ((∀ p, p ∈ ps → inlineData p = None) → failed s) ∧
       (∀ pre p post d,
          ps = pre ++ p :: post →
          (∀ q, q ∈ pre → inlineData q = None) →
          inlineData p = Some d →
          status s = completed ∧
          imageUrl s =
            Some ("data:image/png;base64," +:+ default "undefined" (data d)) ∧
          error s = error s0)).
Proof.
  intros Hres Hj failed answer. set (k0 := length (imageRequests (log w))).
  unfold run. rewrite (generateScenes_exec _ _ _ _ k0 w r Hres eq_refl).
  cbn [app results mbind option_bind scenes with_scenes].
  rewrite scenesDone_all, list_lookup_imap.
  unfold updatedScenes. rewrite list_lookup_fmap, Hj.
  cbn [fmap option_fmap option_map]. eexists. split; [done|].
  unfold outcomeOf, sceneOutcome, imageOfResponse, failed.
  change (sceneRequest toLowerCase analysis aspectRatio
            (with_status pending s0))
    with (sceneRequest toLowerCase analysis aspectRatio s0).
  unfold answer. fold k0. split.
  - by intros msg ->.
  - intros response ps -> Hps.
    rewrite (FirstCandidateParts_responseParts _ _ Hps). split.
    + intros Hnone%firstInlineData_None. by rewrite Hnone.
    + intros pre p post d -> Hpre Hp.
      by rewrite (firstInlineData_first _ _ _ _ Hpre Hp).
Qed.


End ScenePhaseProperties.

(** X8. The card of a scene shows its status.  For a scene that
    satisfies the state invariant the card shows the hourglass when
    pending, the spinner when generating, the image when completed and
    the scene's own error text when in error (the fallback text
    "Generation Failed" is not reached). *)
Theorem cardView_follows_status (s : ScenePrompt) :
  sceneStateOk s →
  match status s with
  | pending => cardView s = ShowHourglass
  | generating => cardView s = ShowSpinner
  | completed =>
      ∃ u, imageUrl s = Some u ∧ u ≠ "" ∧ cardView s = ShowImage u
  | error_ =>
      ∃ e, error s = Some e ∧ e ≠ "" ∧ cardView s = ShowError e
  end.
Proof.
  intros (Hu & He & Hnu & Hne). unfold cardView.
  destruct (status s) eqn:Hst.
  - by rewrite Hnu.
  - by rewrite Hnu.
  - destruct (proj2 Hu eq_refl) as (u & -> & Hnonempty).
    exists u. split_and!; try done. by destruct u.
  - rewrite Hnu by done.
    destruct (proj2 He eq_refl) as (e & -> & Hnonempty).
    exists e. split_and!; try done. by destruct e.
Qed.

(* ================================================================== *)
(** * More about the bundler *)
(* ================================================================== *)

Section BundleProperties.
Import JsString JsStringFacts.

Lemma existsb_filter_nonempty {A} (f : A → bool) (l : list A) :
  existsb f l = true ↔ filter (λ x, f x = true) l ≠ [].
Proof.
  induction l as [|x l IH]; [done|].
  cbn [existsb]. rewrite filter_cons. destruct (f x) eqn:Hx.
  - rewrite decide_True by done. done.
  - rewrite decide_False by (by rewrite not_true_iff_false). done.
Qed.

Variable generateAsync : nat → Zip → Completion string.

Let bundle := downloadAllAsZip generateAsync.

(** X9. The ZIP button and the bundler agree.  [hasAnyCompleted],
    which decides whether the two "Download ZIP" buttons are on the
    page, is true exactly when a click on them encodes an archive; so
    a click on a button that is shown never ends in the "No images
    ready to download yet." alert, and where the button is missing the
    handler would encode and download nothing. *)
Theorem zip_button_iff_something_to_bundle (w : World) :
  (hasAnyCompleted (app w) = true ↔
     ∃ zip, zipGenerations (emitted bundle w) = [zip]) ∧
  (hasAnyCompleted (app w) = true → alerts (emitted bundle w) = []) ∧
  (hasAnyCompleted (app w) = false →
     zipGenerations (emitted bundle w) = [] ∧
     downloads (emitted bundle w) = []).
Proof.
  unfold hasAnyCompleted, bundle.
  destruct (results (app w)) as [res|] eqn:Hres.
  - rewrite (bundle_emitted generateAsync w res Hres). cbv zeta.
    pose proof (existsb_filter_nonempty readyToBundle (scenes res)) as Hex.
    destruct (filter _ (scenes res)) as [|s rest].
    + assert (Hf : existsb readyToBundle (scenes res) = false).
      { apply not_true_iff_false. intros Ht. by apply Hex in Ht. }
      rewrite Hf. split_and!; try done. split; [done|]. by intros [zip ?].
    + assert (Ht : existsb readyToBundle (scenes res) = true)
        by (by apply Hex).
      rewrite Ht. split_and!; try done.
      * split; [|done]. intros _. eexists.
        by destruct (generateAsync _ _).
      * intros _. by destruct (generateAsync _ _).
  - assert (Hnone : emitted (downloadAllAsZip generateAsync) w = []).
    { unfold emitted, exec, downloadAllAsZip. rewrite Hres.
      apply drop_all. }
    rewrite Hnone. split_and!; try done. split; [done|]. by intros [zip ?].
Qed.

End BundleProperties.

Section BundleAfterRun.
Import JsString JsStringFacts.
Variable toLowerCase : string → string.
Variable generateContent :
  nat → GenRequest → Completion GenerateContentResponse.
Variable generateAsync : nat → Zip → Completion string.
Variable analysis : AnalysisResult.
Variable aspectRatio : string.

Let run := generateScenes toLowerCase generateContent analysis aspectRatio.
Let bundle := downloadAllAsZip generateAsync.





End BundleAfterRun.

(* ================================================================== *)
(** * Edge cases of the payload decoding and of the resolver *)
(* ================================================================== *)

Section DecodingEdges.
Import JsString JsStringFacts.

Lemma first_separator sep s :
  contains_char sep s = false ∨
  ∃ pre rest, s = pre +:+ String sep rest ∧ contains_char sep pre = false.
Proof.
  induction s as [|a s IH]; [by left|].
  destruct (Ascii.eqb sep a) eqn:Ha.
  - right. apply Ascii.eqb_eq in Ha as <-. by exists "", s.
  - destruct IH as [IH|(pre & rest & -> & Hpre)].
    + left. unfold contains_char in *. simpl. by rewrite Ha.
    + right. exists (String a pre), rest. split; [done|].
      unfold contains_char in *. simpl. by rewrite Ha.
Qed.

Lemma contains_char_app sep s t :
  contains_char sep (s +:+ t) = contains_char sep s || contains_char sep t.
Proof.
  unfold contains_char. induction s as [|a s IH]; [done|].
  rewrite app_cons. simpl. by rewrite IH, orb_assoc.
Qed.

Lemma first_segment_clean sep s :
  contains_char sep (first_segment sep s) = false.
Proof.
  unfold contains_char. induction s as [|a s IH]; [done|].
  cbn [first_segment]. destruct (Ascii.eqb a sep) eqn:Ha; [done|].
  simpl. by rewrite Ascii.eqb_sym, Ha, IH.
Qed.

Lemma base64Data_after_comma pre rest :
  contains_char "," pre = false →
  base64Data (pre +:+ String "," rest) = Some (first_segment "," rest).
Proof.
  intros Hpre. unfold base64Data. rewrite split_app_sep by done.
  pose proof (head_split "," rest) as H.
  by destruct (split "," rest).
Qed.

(** X11. What the bundler reads from an image text
    ([imageUrl.split(',')[1]]).  It is the text between the first comma
    and the next one (or the end), so it never holds a comma; a text
    with no comma yields [undefined], and only such a text does. *)
Theorem base64Data_reads_second_segment (url : string) :
  (base64Data url = None ↔ contains_char "," url = false) ∧
  (∀ pre rest, url = pre +:+ String "," rest →
     contains_char "," pre = false →
     base64Data url = Some (first_segment "," rest)) ∧
  (∀ p, base64Data url = Some p → contains_char "," p = false).
Proof.
  split_and!.
  - destruct (first_separator "," url) as [Hno|(pre & rest & -> & Hpre)].
    + split; [done|]. intros _. unfold base64Data.
      by rewrite split_no_sep.
    + rewrite base64Data_after_comma by done.
      rewrite contains_char_app. unfold contains_char at 2. simpl.
      rewrite orb_true_r. done.
  - intros pre rest -> Hpre. by apply base64Data_after_comma.
  - intros p Hp.
    destruct (first_separator "," url) as [Hno|(pre & rest & -> & Hpre)].
    + unfold base64Data in Hp. by rewrite split_no_sep in Hp.
    + rewrite base64Data_after_comma in Hp by done.
      injection Hp as <-. apply first_segment_clean.
Qed.

End DecodingEdges.

Section ResolverEdges.
Import JsString JsStringFacts.
Variable toLowerCase : string → string.

Lemma includes_empty s : includes s "" = true.
Proof. apply includes_iff. by exists "", s. Qed.

Lemma includes_refl s : includes s s = true.
Proof.
  apply includes_iff. exists "", "". rewrite app_empty_l.
  induction s as [|a s IH]; [done|]. rewrite app_cons. by f_equal.
Qed.

Lemma filter_all {A} (P : A → Prop) `{!∀ x, Decision (P x)} (l : list A) :
  Forall P l → filter P l = l.
Proof.
  induction 1 as [|x l Hx _ IH]; [done|].
  by rewrite filter_cons_True, IH.
Qed.

(** X12. Edge cases of the name match.  A present-character entry
    that equals a character's name up to case always selects that
    character.  An empty entry in [presentCharacters] selects the whole
    sheet, so the context is every character, in sheet order.  A
    character whose name is empty is selected by any non-empty list of
    present characters.  (The last two use that lower-casing the empty
    string gives the empty string.) *)
Theorem resolver_edge_cases
    (chars : list CharacterInfo) (present : list string) :
  toLowerCase "" = "" →
  (∀ c n, n ∈ present → toLowerCase n = toLowerCase (name c) →
     isPresent toLowerCase present c = true) ∧
  ("" ∈ present →
     sceneCharacterContext toLowerCase chars present =
       join "; " (renderCharacter <$> chars)) ∧
  (∀ c, name c = "" → present ≠ [] →
     isPresent toLowerCase present c = true).
Proof.
  intros Hlow. split_and!.
  - intros c n Hn Heq. unfold isPresent. apply existsb_exists.
    exists n. split; [by apply list_elem_of_In|].
    unfold nameMatches. by rewrite Heq, includes_refl.
  - intros Hin. unfold sceneCharacterContext. rewrite filter_all; [done|].
    apply Forall_forall. intros c _. unfold isPresent.
    apply existsb_exists. exists "". split; [by apply list_elem_of_In|].
    unfold nameMatches. by rewrite Hlow, includes_empty, orb_true_r.
  - intros c Hname Hne. destruct present as [|n rest]; [done|].
    unfold isPresent. cbn [existsb]. unfold nameMatches at 1.
    by rewrite Hname, Hlow, includes_empty.
Qed.

End ResolverEdges.

(* ================================================================== *)
(** * The busy flags while a collaborator is awaited *)
(* ================================================================== *)

(** The state a setter event leaves; other events leave it alone. *)
Definition applyEvent (st : AppState) (e : Event) : AppState :=
  match e with
  | SetIsAnalyzing b =>
      mkAppState b (isGenerating st) (isZipping st) (results st) (progress st)
  | SetIsGenerating b =>
      mkAppState (isAnalyzing st) b (isZipping st) (results st) (progress st)
  | SetIsZipping b =>
      mkAppState (isAnalyzing st) (isGenerating st) b (results st)
        (progress st)
  | SetResults r =>
      mkAppState (isAnalyzing st) (isGenerating st) (isZipping st) r
        (progress st)
  | SetProgress p =>
      mkAppState (isAnalyzing st) (isGenerating st) (isZipping st)
        (results st) p
  | _ => st
  end.

(** The state after a stretch of the log. *)
Definition replay (st : AppState) (l : list Event) : AppState :=
  fold_left applyEvent l st.

(** [cond] holds of the state in which each [trigger] event occurs. *)
Fixpoint holdsAt (trigger : Event → bool) (cond : AppState → bool)
    (st : AppState) (l : list Event) : bool :=
  match l with
  | [] => true
  | e :: rest =>
      (if trigger e then cond st else true) &&
      holdsAt trigger cond (applyEvent st e) rest
  end.

Definition isRemoteRequest (e : Event) : bool :=
  match e with
  | AnalysisRequest _ | ImageRequest _ => true
  | _ => false
  end.

Definition isZipGenerate (e : Event) : bool :=
  match e with
  | ZipGenerate _ => true
  | _ => false
  end.

Definition busy (st : AppState) : bool := isAnalyzing st || isGenerating st.

Section ReplayFacts.

Lemma replay_app st l1 l2 : replay st (l1 ++ l2) = replay (replay st l1) l2.
Proof. apply fold_left_app. Qed.

Lemma holdsAt_app trigger cond st l1 l2 :
  holdsAt trigger cond st (l1 ++ l2) =
  holdsAt trigger cond st l1 && holdsAt trigger cond (replay st l1) l2.
Proof.
  revert st. induction l1 as [|e l1 IH]; intros st; [done|].
  rewrite <- app_comm_cons. cbn [holdsAt]. rewrite IH.
  cbn [replay fold_left]. by rewrite andb_assoc.
Qed.

Lemma holdsAt_split trigger cond st l before e after :
  holdsAt trigger cond st l = true →
  l = before ++ e :: after → trigger e = true →
  cond (replay st before) = true.
Proof.
  intros H -> He. rewrite holdsAt_app in H.
  apply andb_true_iff in H as [_ H]. cbn [holdsAt] in H.
  rewrite He in H. by apply andb_true_iff in H as [H _].
Qed.

(** The setters of the model do what [applyEvent] says of their
    event, and every step only appends to the log. *)
Definition Faithful {A} (m : Run A) : Prop :=
  ∀ w, ∃ l, log (m w).2 = log w ++ l ∧ app (m w).2 = replay (app w) l.

Lemma Faithful_ret {A} (a : A) : Faithful (mret a : Run A).
Proof. intros w. exists []. by rewrite app_nil_r. Qed.

Lemma Faithful_bind {A B} (m : Run A) (k : A → Run B) :
  Faithful m → (∀ a, Faithful (k a)) → Faithful (m ≫= k).
Proof.
  intros Hm Hk w. unfold mbind, Run_bind.
  destruct (Hm w) as (l1 & Hl1 & Ha1). destruct (m w) as [a w1].
  destruct (Hk a w1) as (l2 & Hl2 & Ha2).
  exists (l1 ++ l2). simpl in *.
  by rewrite Hl2, Ha2, Hl1, Ha1, replay_app, app_assoc.
Qed.

Lemma Faithful_step {A} (m : Run A) (e : Event) :
  (∀ w, log (m w).2 = log w ++ [e] ∧ app (m w).2 = applyEvent (app w) e) →
  Faithful m.
Proof. intros H w. exists [e]. apply H. Qed.

Lemma Faithful_forRange body count start :
  (∀ i, Faithful (body i)) → Faithful (forRange count start body).
Proof.
  intros Hbody. revert start.
  induction count as [|c IH]; intros start; cbn [forRange].
  - apply Faithful_ret.
  - apply Faithful_bind; [apply Hbody | intros _; apply IH].
Qed.

Lemma Faithful_emitted {A} (m : Run A) w :
  Faithful m → app (exec m w) = replay (app w) (emitted m w).
Proof.
  intros Hm. destruct (Hm w) as (l & Hl & Ha).
  unfold emitted, exec. by rewrite Ha, Hl, drop_app_length.
Qed.

End ReplayFacts.

Section BusyFlags.
Variable toLowerCase : string → string.
Variable trim : string → string.
Variable analyzeScript : string → Completion AnalysisResult.
Variable generateContent :
  nat → GenRequest → Completion GenerateContentResponse.
Variable generateAsync : nat → Zip → Completion string.

Lemma Faithful_setIsAnalyzing b : Faithful (setIsAnalyzing b).
Proof. by apply (Faithful_step _ (SetIsAnalyzing b)). Qed.

Lemma Faithful_setIsGenerating b : Faithful (setIsGenerating b).
Proof. by apply (Faithful_step _ (SetIsGenerating b)). Qed.

Lemma Faithful_setIsZipping b : Faithful (setIsZipping b).
Proof. by apply (Faithful_step _ (SetIsZipping b)). Qed.

Lemma Faithful_setResults f : Faithful (setResults f).
Proof. intros w. by exists [SetResults (f (results (app w)))]. Qed.

Lemma Faithful_setProgress f : Faithful (setProgress f).
Proof. intros w. by exists [SetProgress (f (progress (app w)))]. Qed.

Lemma Faithful_emit e :
  (∀ st, applyEvent st e = st) → Faithful (emit e).
Proof. intros He w. exists [e]. split; [done|]. simpl. by rewrite He. Qed.

Lemma Faithful_generateImage p c g a :
  Faithful (generateImage generateContent p c g a).
Proof. intros w. by eexists [_]. Qed.

Lemma Faithful_sceneStep analysis us aspectRatio i :
  Faithful (sceneStep toLowerCase generateContent analysis us aspectRatio i).
Proof.
  unfold sceneStep. destruct (us !! i) as [scene|]; [|apply Faithful_ret].
  apply Faithful_bind; [apply Faithful_setResults|]. intros _.
  apply Faithful_bind; [apply Faithful_generateImage|]. intros outcome.
  apply Faithful_bind; [|intros _; apply Faithful_setProgress].
  destruct outcome; apply Faithful_setResults.
Qed.

Lemma Faithful_generateScenes analysis aspectRatio :
  Faithful (generateScenes toLowerCase generateContent analysis aspectRatio).
Proof.
  unfold generateScenes.
  apply Faithful_bind; [apply Faithful_setIsGenerating|]. intros _.
  apply Faithful_bind; [apply Faithful_setResults|]. intros _.
  apply Faithful_bind; [apply Faithful_setProgress|]. intros _.
  apply Faithful_forRange. intros i. apply Faithful_sceneStep.
Qed.

Lemma Faithful_processBulk inputText aspectRatio :
  Faithful (processBulk toLowerCase trim analyzeScript generateContent inputText
              aspectRatio).
Proof.
  unfold processBulk. destruct (blank trim inputText); [apply Faithful_ret|].
  apply Faithful_bind; [apply Faithful_setIsAnalyzing|]. intros _.
  apply Faithful_bind; [intros w; by eexists [_]|]. intros outcome.
  apply Faithful_bind.
  - destruct outcome as [analysis|err].
    + apply Faithful_bind; [apply Faithful_setResults|]. intros _.
      apply Faithful_bind; [apply Faithful_setIsAnalyzing|]. intros _.
      apply Faithful_generateScenes.
    + apply Faithful_bind; [by apply Faithful_emit|]. intros _.
      by apply Faithful_emit.
  - intros _. apply Faithful_bind; [apply Faithful_setIsGenerating|].
    intros _. apply Faithful_setIsAnalyzing.
Qed.

Lemma Faithful_downloadAllAsZip : Faithful (downloadAllAsZip generateAsync).
Proof.
  intros w. unfold downloadAllAsZip.
  destruct (results (app w)) as [res|].
  - revert w. change (Faithful
      (setIsZipping true ;;
       let completedScenes :=
         filter (λ s, readyToBundle s = true) (scenes res) in
       if length completedScenes =? 0
       then emit (Alert "No images ready to download yet.") ;;
            setIsZipping false
       else
         content ← callGenerateAsync generateAsync
                     (filledZip completedScenes) ;
         match content with
         | Returned blob =>
             emit (Download (BlobUrl blob) "visionbulk-scenes.zip")
         | Threw err => emit (ConsoleErrors ["Failed to create ZIP"; err])
         end ;;
         setIsZipping false)).
    apply Faithful_bind; [apply Faithful_setIsZipping|]. intros _.
    cbv zeta. destruct (length _ =? 0).
    + apply Faithful_bind; [by apply Faithful_emit|]. intros _.
      apply Faithful_setIsZipping.
    + apply Faithful_bind; [intros w; by eexists [_]|]. intros content.
      apply Faithful_bind; [|intros _; apply Faithful_setIsZipping].
      destruct content; by apply Faithful_emit.
  - exists []. by rewrite app_nil_r.
Qed.

Lemma holdsAt_stepLog analysis aspectRatio k0 r st a c :
  isGenerating st = true →
  holdsAt isRemoteRequest busy st
    (seq a c ≫= stepLog toLowerCase generateContent analysis aspectRatio
                  k0 r) = true.
Proof.
  revert st a. induction c as [|c IH]; intros st a Hgen; [done|].
  cbn [seq]. rewrite bind_cons, holdsAt_app. apply andb_true_iff.
  unfold stepLog at 1 2.
  destruct (updatedScenes analysis !! a) as [scene|].
  - split.
    + cbn [holdsAt isRemoteRequest applyEvent]. unfold busy.
      cbn [isAnalyzing isGenerating]. by rewrite Hgen, orb_true_r.
    + apply IH. by cbn.
  - split; [done|]. by apply IH.
Qed.

(** X13. The Generate button is dead while a run is waiting.  Whenever
    [processBulk] sends a request to the analysis or to the image
    model, a busy flag is up in the state reached by the setter calls
    made so far: [isAnalyzing] for the analysis, [isGenerating] for
    every image request.  The Generate button is disabled in that
    state whatever the text box holds, so it cannot start a second
    run during the wait. *)
Theorem remote_calls_happen_while_busy
    (inputText aspectRatio : string) (w : World)
    (before after : list Event) (e : Event) :
  emitted (processBulk toLowerCase trim analyzeScript generateContent inputText
             aspectRatio) w = before ++ e :: after →
  isRemoteRequest e = true →
  busy (replay (app w) before) = true ∧
  (∀ text, generateDisabled trim (replay (app w) before) text = true) ∧
  app (exec (processBulk toLowerCase trim analyzeScript generateContent inputText
               aspectRatio) w) =
    replay (app w) (before ++ e :: after).
Proof.
  intros Hsplit He.
  assert (Hbusy : busy (replay (app w) before) = true).
  { eapply holdsAt_split; [|exact Hsplit|exact He].
    destruct (blank trim inputText) eqn:Hblank.
    { unfold emitted. rewrite processBulk_blank_exec by done.
      by rewrite drop_all. }
    unfold emitted.
    destruct (analyzeScript inputText) as [analysis|err] eqn:Hout.
    - rewrite (processBulk_returned_exec _ _ _ _ _ _ _ w Hblank Hout).
      cbn [log]. rewrite drop_app_length.
      rewrite !holdsAt_app. unfold runLog. rewrite holdsAt_app.
      repeat (apply andb_true_iff; split); try done.
      by apply holdsAt_stepLog.
    - rewrite (processBulk_threw_exec _ _ _ _ _ _ _ w Hblank Hout).
      cbn [log]. by rewrite drop_app_length. }
  split_and!; [done | |].
  - intros text. unfold generateDisabled. unfold busy in Hbusy.
    by rewrite Hbusy.
  - rewrite <- Hsplit. apply Faithful_emitted, Faithful_processBulk.
Qed.

(** X14. The ZIP button is dead while an archive is encoded.  When
    [downloadAllAsZip] calls the encoder, [isZipping] is true in the
    state reached so far (the ZIP buttons are disabled on it); when the
    handler ends, [isZipping] is false again, whether it alerted,
    downloaded or logged a failure; and with no results it does
    nothing. *)
Theorem encoding_happens_while_zipping (w : World) :
  (∀ before z after,
     emitted (downloadAllAsZip generateAsync) w =
       before ++ ZipGenerate z :: after →
     isZipping (replay (app w) before) = true) ∧
  (is_Some (results (app w)) →
     isZipping (app (exec (downloadAllAsZip generateAsync) w)) = false) ∧
  (results (app w) = None → exec (downloadAllAsZip generateAsync) w = w) ∧
  app (exec (downloadAllAsZip generateAsync) w) =
    replay (app w) (emitted (downloadAllAsZip generateAsync) w).
Proof.
  split_and!.
  - intros before z after Hsplit.
    eapply (holdsAt_split isZipGenerate isZipping); [|exact Hsplit|done].
    destruct (results (app w)) as [res|] eqn:Hres.
    + rewrite (bundle_emitted generateAsync w res Hres). cbv zeta.
      destruct (filter _ _); [done|]. by destruct (generateAsync _ _).
    + unfold emitted, exec, downloadAllAsZip. rewrite Hres.
      by rewrite drop_all.
  - intros [res Hres].
    by rewrite (downloadAllAsZip_exec generateAsync w res Hres).
  - intros Hres. unfold exec, downloadAllAsZip. by rewrite Hres.
  - apply Faithful_emitted, Faithful_downloadAllAsZip.
Qed.

End BusyFlags.

(* ================================================================== *)
(** * The further properties at the worked run *)
(* ================================================================== *)

Definition freshWorld : World := mkWorld initialState [].

Definition sampleText : string := "Once upon a time".

Definition workingAnalysis (_ : string) : Completion AnalysisResult :=
  Returned sampleAnalysis.

Definition failingAnalysis (_ : string) : Completion AnalysisResult :=
  Threw "quota exceeded".

(** A state that still shows the results of an earlier run. *)
Definition usedWorld : World := mkWorld (app finishedWorld) [].

Lemma analysis_failure_aborts_run_witness :
  blank asciiTrim sampleText = false ∧
  failingAnalysis sampleText = Threw "quota exceeded" ∧
  emitted (processBulk JsString.asciiLowerCase asciiTrim failingAnalysis sampleOracle
             sampleText "16:9") usedWorld =
    [SetIsAnalyzing true; AnalysisRequest sampleText;
     ConsoleError "quota exceeded"; Alert failureAlert;
     SetIsGenerating false; SetIsAnalyzing false] ∧
  results (app (exec (processBulk JsString.asciiLowerCase asciiTrim failingAnalysis
                        sampleOracle sampleText "16:9") usedWorld))
    = Some finishedResult.
Proof.
  pose proof (analysis_failure_aborts_run JsString.asciiLowerCase asciiTrim
                failingAnalysis sampleOracle sampleText "16:9"
                "quota exceeded" usedWorld eq_refl eq_refl)
    as (H1 & _ & H3 & _).
  split_and!; [reflexivity | reflexivity | exact H1 | exact H3].
Defined.

Lemma processBulk_clears_busy_flags_witness :
  blank asciiTrim sampleText = false ∧
  isAnalyzing (app (exec (processBulk JsString.asciiLowerCase asciiTrim
                            workingAnalysis sampleOracle sampleText "16:9")
                      freshWorld)) = false ∧
  isGenerating (app (exec (processBulk JsString.asciiLowerCase asciiTrim
                             workingAnalysis sampleOracle sampleText "16:9")
                       freshWorld)) = false.
Proof.
  pose proof (processBulk_clears_busy_flags JsString.asciiLowerCase asciiTrim
                workingAnalysis sampleOracle sampleText "16:9" freshWorld
                eq_refl) as (H1 & H2 & _).
  split_and!; [reflexivity | exact H1 | exact H2].
Defined.

Lemma run_starts_afresh_witness :
  blank asciiTrim sampleText = false ∧
  results (app (exec (processBulk JsString.asciiLowerCase asciiTrim workingAnalysis
                        kindOracle sampleText "16:9") freshWorld)) =
  results (app (exec (processBulk JsString.asciiLowerCase asciiTrim workingAnalysis
                        kindOracle sampleText "16:9") usedWorld)).
Proof.
  split; [reflexivity|].
  exact (run_starts_afresh JsString.asciiLowerCase asciiTrim workingAnalysis
           kindOracle sampleText "16:9" sampleAnalysis freshWorld
           usedWorld eq_refl eq_refl eq_refl).
Defined.

Lemma scene_phase_preserves_inputs_witness :
  results (app sampleWorld) = Some sampleAnalysis ∧
  characters finishedResult = characters sampleAnalysis ∧
  visualStyle finishedResult = visualStyle sampleAnalysis ∧
  length (scenes finishedResult) = length (scenes sampleAnalysis).
Proof.
  pose proof (scene_phase_preserves_inputs JsString.asciiLowerCase
                sampleOracle sampleAnalysis "16:9" sampleWorld
                sampleAnalysis finishedResult eq_refl
                (or_intror eq_refl)) as (H1 & H2 & H3 & _).
  split_and!; [reflexivity | exact H1 | exact H2 | exact H3].
Defined.

Lemma final_scene_by_api_answer_witness :
  results (app sampleWorld) = Some sampleAnalysis ∧
  (∃ s, (results (app finishedWorld) ≫= λ R, scenes R !! 0) = Some s ∧
     status s = completed ∧
     imageUrl s = Some "data:image/png;base64,QUJD" ∧ error s = None) ∧
  (∃ s, (results (app finishedWorld) ≫= λ R, scenes R !! 1) = Some s ∧
     status s = error_ ∧ error s = Some "Failed to generate image" ∧
     imageUrl s = None).
Proof.
  split_and!; [reflexivity | |].
  - pose proof (final_scene_by_api_answer JsString.asciiLowerCase
                  sampleOracle sampleAnalysis "16:9" sampleWorld
                  sampleAnalysis 0 (sampleScene "s1" ["ayesha"] completed)
                  eq_refl eq_refl) as H.
    cbv zeta in H. destruct H as (s & Hs & _ & H). exists s.
    split; [exact Hs|].
    refine (proj2 (H (imageResponse "QUJD")
                     [mkPart (Some "here it is") None;
                      mkPart None (Some (mkInlineData (Some "QUJD")
                                           (Some "image/jpeg")))]
                     eq_refl _)
              [mkPart (Some "here it is") None]
              (mkPart None (Some (mkInlineData (Some "QUJD")
                                    (Some "image/jpeg"))))
              [] _ eq_refl _ eq_refl).
    + by eapply FCP_parts.
    + intros q Hq. apply list_elem_of_singleton in Hq. by subst q.
  - pose proof (final_scene_by_api_answer JsString.asciiLowerCase
                  sampleOracle sampleAnalysis "16:9" sampleWorld
                  sampleAnalysis 1
                  (sampleScene "s2" ["Bilal"; "Ayesha"] pending)
                  eq_refl eq_refl) as H.
    cbv zeta in H. destruct H as (s & Hs & H & _). exists s.
    split; [exact Hs|]. exact (H "503" eq_refl).
Defined.


Definition finishedScene3 : ScenePrompt :=
  mkScenePrompt "s3" "text" "prompt" [] completed
    (Some "data:image/png;base64,REVG") None.

Lemma cardView_follows_status_witness :
  sceneStateOk finishedScene3 ∧
  ∃ u, imageUrl finishedScene3 = Some u ∧ u ≠ "" ∧
       cardView finishedScene3 = ShowImage u.
Proof.
  assert (Hok : sceneStateOk finishedScene3).
  { unfold sceneStateOk, populated. simpl. split_and!.
    - split; [done|]. intros _. by eexists.
    - split; [by intros (v & ? & _) | done].
    - done.
    - done. }
  split; [exact Hok|].
  exact (cardView_follows_status finishedScene3 Hok).
Defined.


Lemma resolver_edge_cases_witness :
  JsString.asciiLowerCase "" = "" ∧
  sceneCharacterContext JsString.asciiLowerCase sampleSheet [""] =
    "Ayesha (tall, green scarf); Bilal (short beard)".
Proof.
  split; [reflexivity|].
  pose proof (resolver_edge_cases JsString.asciiLowerCase sampleSheet [""]
                eq_refl) as (_ & H & _).
  apply H. by left.
Defined.

Lemma remote_calls_happen_while_busy_witness :
  emitted (processBulk JsString.asciiLowerCase asciiTrim failingAnalysis sampleOracle
             sampleText "16:9") freshWorld =
    [SetIsAnalyzing true] ++ AnalysisRequest sampleText ::
    [ConsoleError "quota exceeded"; Alert failureAlert;
     SetIsGenerating false; SetIsAnalyzing false] ∧
  busy (replay (app freshWorld) [SetIsAnalyzing true]) = true.
Proof.
  split; [reflexivity|].
  exact (proj1 (remote_calls_happen_while_busy JsString.asciiLowerCase asciiTrim
                  failingAnalysis sampleOracle sampleText "16:9" freshWorld
                  [SetIsAnalyzing true]
                  [ConsoleError "quota exceeded"; Alert failureAlert;
                   SetIsGenerating false; SetIsAnalyzing false]
                  (AnalysisRequest sampleText) eq_refl eq_refl)).
Defined.

(** The same at an image request of the worked run: the second scene
    is requested while [isGenerating] is up. *)
Example image_request_while_generating :
  let l := emitted (processBulk JsString.asciiLowerCase asciiTrim workingAnalysis
                      sampleOracle sampleText "16:9") freshWorld in
  isRemoteRequest <$> l !! 12 = Some true ∧
  isGenerating (replay (app freshWorld) (take 12 l)) = true ∧
  isAnalyzing (replay (app freshWorld) (take 12 l)) = false.
Proof. repeat split. Qed.
